(** * Message definition cache of rosx_introspection

    A shallow embedding of [src/ros_utils/message_definition_cache.cpp]:
    the two regular expressions, [parse_dependencies], the [MessageSpec]
    constructor, [MessageDefinitionCache::load_message_spec] and
    [MessageDefinitionCache::get_full_text], followed by the properties
    the specification states about them.

    Conventions.
    - A [std::string] is a [string] (a sequence of 8-bit characters).
    - A [std::set<std::string>] is a list kept strictly increasing for the
      byte-wise lexicographic order, which is the order its iteration follows.
    - The cache [msg_specs_by_datatype_] is a finite map, [seen_deps] a
      finite set.
    - The file system is a finite map from paths to file contents; every
      [std::ifstream] opening is recorded in a trace.
    - A C++ exception is a value of [exn]; a function that may throw returns
      [exn + A] next to the state it leaves behind. *)

From Stdlib Require Import Ascii String List Arith Lia.
From stdpp Require Import gmap strings list fin_maps sorting.

#[local] Set Warnings "-clear-no-such-hyp".

Local Open Scope char_scope.
Local Open Scope stdpp_scope.

(** ** Strings *)

Module Str.

(** The longest prefix of [s] whose characters satisfy [p], and the rest:
    what a greedy [[...]*] consumes. *)
Fixpoint span (p : ascii → bool) (s : string) : string * string :=
  match s with
  | EmptyString => (EmptyString, EmptyString)
  | String c s' =>
      if p c then let '(a, b) := span p s' in (String c a, b)
      else (EmptyString, s)
  end.

Fixpoint all_chars (p : ascii → bool) (s : string) : bool :=
  match s with
  | EmptyString => true
  | String c s' => p c && all_chars p s'
  end.

Fixpoint has_char (p : ascii → bool) (s : string) : bool :=
  match s with
  | EmptyString => false
  | String c s' => p c || has_char p s'
  end.

(** [strip_prefix p s] is [Some r] when [s = p ++ r]. *)
Fixpoint strip_prefix (p s : string) : option string :=
  match p, s with
  | EmptyString, _ => Some s
  | String a p', String b s' =>
      if Ascii.eqb a b then strip_prefix p' s' else None
  | String _ _, EmptyString => None
  end.

(** [s.find(needle) != npos], equivalently [s.rfind(needle) != npos]:
    [needle] occurs somewhere in [s]. *)
Fixpoint occurs (needle s : string) : bool :=
  match strip_prefix needle s with
  | Some _ => true
  | None => match s with
            | EmptyString => false
            | String _ s' => occurs needle s'
            end
  end.

Definition is_empty (s : string) : bool :=
  match s with EmptyString => true | _ => false end.

(** A string of [n] copies of [c]. *)
Fixpoint replicate (n : nat) (c : ascii) : string :=
  match n with
  | 0 => EmptyString
  | S n' => String c (replicate n' c)
  end.

End Str.

(** The line feed character and the one-character string holding it. *)
Definition LF_char : ascii := "010".
Definition LF : string := String LF_char EmptyString.

(** ** Character classes of the two regular expressions *)

Definition in_range (lo hi c : ascii) : bool := Ascii.leb lo c && Ascii.leb c hi.

(** [[a-zA-Z0-9_]] *)
Definition is_word_char (c : ascii) : bool :=
  in_range "a" "z" c || in_range "A" "Z" c || in_range "0" "9" c || Ascii.eqb c "_".

(** [[a-zA-Z0-9_/]] *)
Definition is_type_char (c : ascii) : bool :=
  in_range "a" "z" c || in_range "A" "Z" c || in_range "0" "9" c
  || Ascii.eqb c "_" || Ascii.eqb c "/".

(** [\s] in the classic locale: space, and the controls 9 to 13
    (tab, line feed, vertical tab, form feed, carriage return). *)
Definition isspace (c : ascii) : bool :=
  Ascii.eqb c " " || in_range "009" "013" c.

(** ** [MSG_DATATYPE_REGEX]

    [^([a-zA-Z0-9_]+)/(?:msg/|srv/|action/)?([a-zA-Z0-9_]+)$], used with
    [std::regex_match] (the whole string has to match).  The first group is
    greedy and a shorter choice would leave a word character where [/] is
    required, so it is the longest run of word characters.  The optional
    group is tried with each of its alternatives in turn, and skipped when
    what follows does not complete the match. *)

(** [([a-zA-Z0-9_]+)$] *)
Definition word_to_end (s : string) : option string :=
  match Str.span is_word_char s with
  | (String c w, EmptyString) => Some (String c w)
  | _ => None
  end.

Definition or_else {A} (x y : option A) : option A :=
  match x with Some _ => x | None => y end.

(** [([a-zA-Z0-9_]+)$] after the text [r] left by the optional group, when
    that group matched at all. *)
Definition type_after (package : string) (r : option string) : option (string * string) :=
  match r with
  | Some r' =>
      match word_to_end r' with
      | Some type => Some (package, type)
      | None => None
      end
  | None => None
  end.

(** The result is [(match[1], match[2])]. *)
Definition regex_match_MSG_DATATYPE (datatype : string) : option (string * string) :=
  match Str.span is_word_char datatype with
  | (String c p, String sep rest) =>
      let package := String c p in
      if Ascii.eqb sep "/" then
        or_else (type_after package (Str.strip_prefix "msg/" rest))
          (or_else (type_after package (Str.strip_prefix "srv/" rest))
             (or_else (type_after package (Str.strip_prefix "action/" rest))
                (type_after package (Some rest))))
      else None
  | _ => None
  end.

(** ** [FIELD_TYPE_REGEX]

    [(?:^|\n)\s*([a-zA-Z0-9_/]+)(?:\[[^\]]*\])?\s+], used through
    [std::sregex_iterator]: successive [std::regex_search] calls, each
    starting where the previous match ended.  [^] matches only at the very
    beginning of the text (the expression is not compiled as multiline, which
    is why it spells out the alternative [\n]). *)

(** [\s*] *)
Definition skip_spaces (s : string) : string := snd (Str.span isspace s).

(** [\s+] *)
Definition spaces1 (s : string) : option string :=
  match s with
  | String c s' => if isspace c then Some (skip_spaces s') else None
  | EmptyString => None
  end.

(** [[^\]]*\]]: up to and including the first closing bracket. *)
Fixpoint after_close_bracket (s : string) : option string :=
  match s with
  | EmptyString => None
  | String c s' => if Ascii.eqb c "]" then Some s' else after_close_bracket s'
  end.

(** [\[[^\]]*\]] *)
Definition bracket_group (s : string) : option string :=
  match s with
  | String c s' => if Ascii.eqb c "[" then after_close_bracket s' else None
  | EmptyString => None
  end.

(** [\s*([a-zA-Z0-9_/]+)(?:\[[^\]]*\])?\s+] matched at the head of [s]:
    the first group and the text left after the match.  The bracket group is
    tried first and, when the match cannot be completed after it, skipped. *)
Definition match_field_body (s : string) : option (string * string) :=
  match Str.span is_type_char (skip_spaces s) with
  | (String c t, rest) =>
      let type := String c t in
      let after_brackets :=
        match bracket_group rest with
        | Some r => spaces1 r
        | None => None
        end in
      match or_else after_brackets (spaces1 rest) with
      | Some r => Some (type, r)
      | None => None
      end
  | _ => None
  end.

(** The whole expression matched at the head of [s]; [at_begin] says that
    [s] is the whole text, so that [^] matches. *)
Definition match_field_here (at_begin : bool) (s : string) : option (string * string) :=
  let after_newline :=
    match s with
    | String c s' => if Ascii.eqb c LF_char then match_field_body s' else None
    | EmptyString => None
    end in
  if at_begin then or_else (match_field_body s) after_newline else after_newline.

(** [std::regex_search]: the match at the leftmost position that has one. *)
Fixpoint regex_search_FIELD_TYPE (at_begin : bool) (s : string) : option (string * string) :=
  match match_field_here at_begin s with
  | Some r => Some r
  | None =>
      match s with
      | EmptyString => None
      | String _ s' => regex_search_FIELD_TYPE false s'
      end
  end.

(** The first group of the match at every step of the
    [std::sregex_iterator] loop, in order.  Every match consumes at least
    one character, so [n] searches exhaust a text of length [n]. *)
Fixpoint field_types_from (n : nat) (at_begin : bool) (s : string) : list string :=
  match n with
  | 0 => []
  | S n' =>
      match regex_search_FIELD_TYPE at_begin s with
      | None => []
      | Some (type, rest) => type :: field_types_from n' false rest
      end
  end.

Definition field_types (text : string) : list string :=
  field_types_from (String.length text) true text.

(** ** [std::set<std::string>]

    A [std::set] orders its elements with [operator<], which on
    [std::string] compares byte by byte; [String.ltb] is that comparison.
    [insert] leaves the set alone when an equivalent element is present. *)

Fixpoint set_insert (x : string) (s : list string) : list string :=
  match s with
  | [] => [x]
  | y :: s' =>
      if String.ltb x y then x :: s
      else if String.ltb y x then y :: set_insert x s'
      else s
  end.

(** ** [parse_dependencies] *)

Definition PRIMITIVE_TYPES : list string :=
  [ "bool"; "byte"; "char"; "float32"; "float64"; "int8"; "uint8";
    "int16"; "uint16"; "int32"; "uint32"; "int64"; "uint64"; "string" ].

(** [type.find('/') != std::string::npos] *)
Definition has_slash (type : string) : bool :=
  Str.has_char (λ c, Ascii.eqb c "/") type.

(** One turn of the loop body on the set built so far. *)
Definition add_dependency (package_context : string)
    (dependencies : list string) (type : string) : list string :=
  if bool_decide (type ∈ PRIMITIVE_TYPES) then dependencies
  else if has_slash type then set_insert type dependencies
  else set_insert (package_context +:+ "/" +:+ type) dependencies.

Definition parse_dependencies (text package_context : string) : list string :=
  fold_left (add_dependency package_context) (field_types text) [].

(** ** [MessageSpec] *)

(** Modelled from the spec: the declaration of [struct MessageSpec] is in
    [message_definition_cache.hpp], which is not among the sources.  The
    spec's Schema has a [text] and a [dependencies] collection; the
    constructor in the [.cpp] file initialises [dependencies] from the
    [std::set<std::string>] that [parse_dependencies] returns, and
    [get_full_text] iterates over it, so the field is taken to be that
    ordered set. *)
Record MessageSpec : Type := {
  dependencies : list string;
  text : string;
}.

(** [MessageSpec::MessageSpec(std::string text, const std::string& package_context)] *)
Definition MessageSpec_new (text package_context : string) : MessageSpec :=
  {| dependencies := parse_dependencies text package_context; text := text |}.

(** ** Splitting a service or action file *)

Definition is_delimiter (c1 c2 c3 : ascii) : bool :=
  Ascii.eqb c1 "-" && Ascii.eqb c2 "-" && Ascii.eqb c3 "-".

Definition extend_part (c : ascii) (parts : list string) : list string :=
  match parts with
  | p :: ps => String c p :: ps
  | [] => [String c EmptyString]
  end.

(** The [parts] vector after the [while] loop and the last [push_back]:
    the pieces of [content] between the successive leftmost occurrences of
    the delimiter, each search resuming right after the previous
    occurrence. *)
Fixpoint split_parts (content : string) : list string :=
  match content with
  | EmptyString => [EmptyString]
  | String c1 rest1 =>
      match rest1 with
      | String c2 (String c3 rest3) =>
          if is_delimiter c1 c2 c3 then EmptyString :: split_parts rest3
          else extend_part c1 (split_parts rest1)
      | _ => extend_part c1 (split_parts rest1)
      end
  end.

(** ** Exceptions, the cache and the file system *)

Inductive exn : Type :=
| invalid_argument (what : string)
| PackageNotFoundError (package_name : string).

(** The four messages of the [std::invalid_argument] exceptions thrown by
    [load_message_spec], under the names the specification gives to the
    error kinds. *)
Definition InvalidName (datatype : string) : exn :=
  invalid_argument ("Invalid datatype name: " +:+ datatype).
Definition NotFound (datatype : string) : exn :=
  invalid_argument ("Could not open the Message file: " +:+ datatype).
Definition MalformedAction (datatype : string) : exn :=
  invalid_argument ("Error parsing action message: " +:+ datatype).
Definition MalformedService (datatype : string) : exn :=
  invalid_argument ("Error parsing service message: " +:+ datatype).

(** The state the functions act on: the member [msg_specs_by_datatype_],
    and the trace of the files that were opened, each with the outcome of
    the opening, oldest first. *)
Record state : Type := {
  msg_specs_by_datatype_ : gmap string MessageSpec;
  opened : list (string * bool);
}.

Definition initial_state : state :=
  {| msg_specs_by_datatype_ := ∅; opened := [] |}.

(** The number of files that were opened successfully, each of which is
    then read. *)
Definition file_reads (st : state) : nat :=
  length (filter (λ o, snd o = true) (opened st)).

(** [msg_specs_by_datatype_.emplace(datatype, spec).first->second]: the
    element is inserted unless the key is present, and the element now
    stored under the key is returned. *)
Definition emplace (datatype : string) (spec : MessageSpec) (st : state)
    : MessageSpec * state :=
  match msg_specs_by_datatype_ st !! datatype with
  | Some found => (found, st)
  | None =>
      (spec, {| msg_specs_by_datatype_ := <[datatype := spec]> (msg_specs_by_datatype_ st);
                opened := opened st |})
  end.

(** [contents] for a service file that split into [parts]. *)
Definition service_contents (type : string) (parts : list string) : string :=
  if Str.occurs "_Request" type then nth 0 parts EmptyString
  else if Str.occurs "_Result" type then nth 1 parts EmptyString
  else EmptyString.

(** [contents] for an action file that split into [parts]. *)
Definition action_contents (type : string) (parts : list string) : string :=
  if Str.occurs "_Goal" type then nth 0 parts EmptyString
  else if Str.occurs "_Result" type then nth 1 parts EmptyString
  else if Str.occurs "_Feedback" type then nth 2 parts EmptyString
  else EmptyString.

(** [type.find('_')] *)
Fixpoint find_underscore (type : string) : option nat :=
  match type with
  | EmptyString => None
  | String c type' =>
      if Ascii.eqb c "_" then Some 0 else S <$> find_underscore type'
  end.

(** The name of the service or action file, without its extension. *)
Definition file_name_of (type : string) : string :=
  match find_underscore type with
  | Some pos => String.substring 0 pos type
  | None => type
  end.

(** What the code reads from its surroundings: the files that exist, with
    their contents, and [ament_index_cpp::get_package_share_directory],
    which gives the share directory of an installed package and throws
    [PackageNotFoundError] ([None] here) for any other name. *)
Class Installation : Type := {
  files : gmap string string;
  get_package_share_directory : string → option string;
}.

Section Code.

Context `{Installation}.

(** [std::ifstream file{path}] and [file.open(path)]: the stream is in a
    failed state ([None]) when there is no such file, and holds the unread
    contents of the file otherwise. *)
Definition ifstream_open (path : string) (st : state) : option string * state :=
  (files !! path,
   {| msg_specs_by_datatype_ := msg_specs_by_datatype_ st;
      opened := opened st ++ [(path, bool_decide (is_Some (files !! path)))] |}).

(** The service branch once the file is open: the value of [contents] and
    what is left unread in the stream. *)
Definition parse_service (datatype type content : string) : exn + string * string :=
  let parts := split_parts content in
  if bool_decide (length parts ≠ 2) then inl (MalformedService datatype)
  else inr (service_contents type parts, EmptyString).

(** The action branch once the file is open. *)
Definition parse_action (datatype type content : string) : exn + string * string :=
  let parts := split_parts content in
  if bool_decide (length parts ≠ 3) then inl (MalformedAction datatype)
  else inr (action_contents type parts, EmptyString).

(** The cascade of openings of [load_message_spec]: the value of
    [contents] when control reaches the test [contents.empty()], and the
    part of the open file that has not been read by then. *)
Definition open_definition (share_dir type datatype : string) (st : state)
    : (exn + string * string) * state :=
  let '(file, st) := ifstream_open (share_dir +:+ "/msg/" +:+ type +:+ ".msg") st in
  match file with
  | Some body => (inr (EmptyString, body), st)
  | None =>
      let '(file, st) := ifstream_open (share_dir +:+ "/srv/" +:+ type +:+ ".msg") st in
      match file with
      | Some body => (inr (EmptyString, body), st)
      | None =>
          let file_name := file_name_of type in
          let '(file, st) :=
            ifstream_open (share_dir +:+ "/srv/" +:+ file_name +:+ ".srv") st in
          match file with
          | Some content => (parse_service datatype type content, st)
          | None =>
              let '(file, st) :=
                ifstream_open (share_dir +:+ "/action/" +:+ file_name +:+ ".action") st in
              match file with
              | Some content => (parse_action datatype type content, st)
              | None => (inl (NotFound datatype), st)
              end
          end
      end
  end.

(** [MessageDefinitionCache::load_message_spec] *)
Definition load_message_spec (datatype : string) (st : state)
    : (exn + MessageSpec) * state :=
  match msg_specs_by_datatype_ st !! datatype with
  | Some spec => (inr spec, st)
  | None =>
      match regex_match_MSG_DATATYPE datatype with
      | None => (inl (InvalidName datatype), st)
      | Some (package, type) =>
          match get_package_share_directory package with
          | None => (inl (PackageNotFoundError package), st)
          | Some share_dir =>
              match open_definition share_dir type datatype st with
              | (inl e, st) => (inl e, st)
              | (inr (contents, unread), st) =>
                  let contents :=
                    if Str.is_empty contents then unread else contents in
                  let '(spec, st) :=
                    emplace datatype (MessageSpec_new contents package) st in
                  (inr spec, st)
              end
          end
      end
  end.

(** The local variables of [get_full_text] that the lambda captures by
    reference. *)
Record locals : Type := {
  result : string;
  seen_deps : gset string;
}.

(** The separator the lambda appends before [datatype]. *)
Definition separator : string :=
  LF +:+ Str.replicate 80 "=" +:+ LF +:+ "MSG: ".

(** How a call of the lambda ends: [None] when the recursion is deeper
    than allowed, otherwise an exception or the updated locals, and the
    state. *)
Definition outcome : Type := option ((exn + locals) * state).

(** The [for] loop over [spec.dependencies], given the function to call
    on a dependency seen for the first time. *)
Fixpoint for_each_dependency (visit : string → locals → state → outcome)
    (deps : list string) (l : locals) (st : state) : outcome :=
  match deps with
  | [] => Some (inr l, st)
  | dep :: deps' =>
      let inserted := bool_decide (dep ∉ seen_deps l) in
      let l := {| result := result l; seen_deps := {[dep]} ∪ seen_deps l |} in
      if inserted then
        match visit dep l st with
        | Some (inr l, st) => for_each_dependency visit deps' l st
        | stopped => stopped
        end
      else for_each_dependency visit deps' l st
  end.

(** The lambda [append_recursive]; [depth] bounds the depth of its
    recursion. *)
Fixpoint append_recursive (depth : nat) (datatype : string)
    (l : locals) (st : state) : outcome :=
  match depth with
  | 0 => None
  | S depth' =>
      match load_message_spec datatype st with
      | (inl e, st) => Some (inl e, st)
      | (inr spec, st) =>
          let result :=
            if negb (Str.is_empty (result l))
            then result l +:+ separator +:+ datatype +:+ LF
            else result l in
          let result := result +:+ text spec in
          for_each_dependency (append_recursive depth') (dependencies spec)
            {| result := result; seen_deps := seen_deps l |} st
      end
  end.

(** [MessageDefinitionCache::get_full_text] *)
Definition get_full_text (depth : nat) (root_datatype : string) (st : state)
    : option ((exn + string) * state) :=
  match append_recursive depth root_datatype
          {| result := EmptyString; seen_deps := {[root_datatype]} |} st with
  | Some (inr l, st) => Some (inr (result l), st)
  | Some (inl e, st) => Some (inl e, st)
  | None => None
  end.

End Code.

(** ** Notions used to state the properties *)

(** A non-empty run of alphanumerics and underscores. *)
Definition is_word (s : string) : bool :=
  negb (Str.is_empty s) && Str.all_chars is_word_char s.

(** The shape of a datatype name as the specification words it:
    [package/Type], or [package/<infix>/Type] with the infix one of [msg],
    [srv] and [action], both names being words. *)
Definition datatype_shape (datatype package type : string) : Prop :=
  is_word package = true ∧ is_word type = true ∧
  (datatype = package +:+ "/" +:+ type ∨
   ∃ infix, infix ∈ ["msg"; "srv"; "action"] ∧
            datatype = package +:+ "/" +:+ infix +:+ "/" +:+ type).

(** The strict order of [std::set<std::string>]. *)
Definition string_lt (a b : string) : Prop := String.ltb a b = true.

(** The dependency a field type stands for in a schema of [package]. *)
Definition qualify (package type : string) : string :=
  if has_slash type then type else package +:+ "/" +:+ type.

Section Notions.

Context `{Installation}.

(** The outcome of the cascade of openings, and the openings it makes:
    neither depends on the state. *)
Definition resolve (share_dir type datatype : string) : exn + string * string :=
  fst (open_definition share_dir type datatype initial_state).

Definition attempts (share_dir type datatype : string) : list (string * bool) :=
  opened (snd (open_definition share_dir type datatype initial_state)).

(** What resolving [datatype] gives when nothing is cached: it depends on
    the installation alone. *)
Definition locate (datatype : string) : exn + MessageSpec :=
  fst (load_message_spec datatype initial_state).

(** The invariant of the cache: every entry is what resolving its key
    gives.  It holds initially and every operation keeps it. *)
Definition consistent (st : state) : Prop :=
  ∀ datatype spec,
    msg_specs_by_datatype_ st !! datatype = Some spec →
    locate datatype = inr spec.

Definition text_of (datatype : string) : string :=
  match locate datatype with
  | inr spec => text spec
  | inl _ => EmptyString
  end.

(** A separator, a header and a schema text: what the walk appends for a
    datatype other than the root. *)
Definition schema_block (datatype : string) : string :=
  separator +:+ datatype +:+ LF +:+ text_of datatype.

Definition blocks (order : list string) : string :=
  foldr (λ datatype rest, schema_block datatype +:+ rest) EmptyString order.

(** The document made of the root's text and a block per further
    datatype. *)
Definition document (root : string) (order : list string) : string :=
  text_of root +:+ blocks order.

(** The walk of [append_recursive] on the installation alone: every
    [load_message_spec] is replaced by its value [locate]. *)
Fixpoint for_each_located (visit : string → locals → option (exn + locals))
    (deps : list string) (l : locals) : option (exn + locals) :=
  match deps with
  | [] => Some (inr l)
  | dep :: deps' =>
      let inserted := bool_decide (dep ∉ seen_deps l) in
      let l := {| result := result l; seen_deps := {[dep]} ∪ seen_deps l |} in
      if inserted then
        match visit dep l with
        | Some (inr l) => for_each_located visit deps' l
        | stopped => stopped
        end
      else for_each_located visit deps' l
  end.

Fixpoint append_located (depth : nat) (datatype : string) (l : locals)
    : option (exn + locals) :=
  match depth with
  | 0 => None
  | S depth' =>
      match locate datatype with
      | inl e => Some (inl e)
      | inr spec =>
          let result :=
            if negb (Str.is_empty (result l))
            then result l +:+ separator +:+ datatype +:+ LF
            else result l in
          let result := result +:+ text spec in
          for_each_located (append_located depth') (dependencies spec)
            {| result := result; seen_deps := seen_deps l |}
      end
  end.

Definition full_text_located (depth : nat) (root : string) : option (exn + string) :=
  match append_located depth root
          {| result := EmptyString; seen_deps := {[root]} |} with
  | Some (inr l) => Some (inr (result l))
  | Some (inl e) => Some (inl e)
  | None => None
  end.

(** An outcome of the walk on a state agrees with an outcome of the walk
    on the installation alone, and leaves a consistent cache. *)
Definition agrees {A} (o : option ((exn + A) * state)) (o' : option (exn + A)) : Prop :=
  match o with
  | Some (r, st) => o' = Some r ∧ consistent st
  | None => o' = None
  end.

(** The datatypes in [order] are resolved, and their dependencies are in
    [seen]. *)
Definition closed_in (seen : gset string) (order : list string) : Prop :=
  ∀ x, x ∈ order →
    ∃ spec, locate x = inr spec ∧ ∀ dep, dep ∈ dependencies spec → dep ∈ seen.

(** What a part of the walk that returns has done to the locals: it has
    appended the blocks of [first] and of [order], datatypes that it has
    resolved, and [order] is what it has added to the seen set, each
    datatype once. *)
Definition appended (first : list string) (l l' : locals) (order : list string) : Prop :=
  NoDup order ∧
  (∀ x, x ∈ order → x ∉ seen_deps l) ∧
  seen_deps l' = seen_deps l ∪ list_to_set order ∧
  result l' = result l +:+ blocks (first ++ order) ∧
  closed_in (seen_deps l') (first ++ order).

(** Every text that resolution can take as a schema body: the empty
    text, a whole file, or a part of a file split at the delimiter. *)
Definition candidate_texts : list string :=
  EmptyString :: ((map_to_list files).*2 ≫= λ body, body :: split_parts body).

(** Every field type that occurs in one of them. *)
Definition raw_types : list string := candidate_texts ≫= field_types.

Definition package_of (datatype : string) : option string :=
  fst <$> regex_match_MSG_DATATYPE datatype.

(** The packages of the datatypes a walk from [root] can come across. *)
Definition packages (root : string) : list string :=
  omap package_of (root :: raw_types).

(** A finite set that holds every datatype a walk from [root] can come
    across; its size bounds the depth of the recursion. *)
Definition universe (root : string) : list string :=
  root :: (packages root ≫= λ package, qualify package <$> raw_types).

(** [a] has a schema, and [b] is one of its dependencies. *)
Definition depends_on (a b : string) : Prop :=
  ∃ spec, locate a = inr spec ∧ b ∈ dependencies spec.

(** A depth that is enough for the walk from [root]. *)
Definition depth_bound (root : string) : nat :=
  size (list_to_set (universe root) : gset string).

End Notions.

(** The separator as the specification words it: a line of 80 [=] and the
    beginning of the header line. *)
Definition spec_separator : string := Str.replicate 80 "=" +:+ LF +:+ "MSG: ".

(** The document as the specification words it, for the root's text and the
    datatypes and texts of the further schemas. *)
Definition spec_document (root_text : string) (others : list (string * string)) : string :=
  root_text +:+
  foldr (λ '(datatype, schema_text) rest,
           spec_separator +:+ datatype +:+ LF +:+ schema_text +:+ rest)
        EmptyString others.

(** ** Installations used as examples *)

Module Examples.

(** Packages are installed under one prefix. *)
Definition share (package : string) : option string :=
  Some ("/opt/ros/share/" +:+ package).

Definition circle_text : string :=
  "geometry_msgs/Point position" +:+ LF +:+ "float64 radius" +:+ LF.
Definition point_text : string :=
  "float64 x" +:+ LF +:+ "float64 y" +:+ LF +:+ "float64 z" +:+ LF.

(** The example of the specification: a circle made of a point and a
    radius. *)
Definition circle : Installation := {|
  files := {[ "/opt/ros/share/circle_msgs/msg/Circle.msg" := circle_text;
              "/opt/ros/share/geometry_msgs/msg/Point.msg" := point_text ]};
  get_package_share_directory := share;
|}.

(** Two messages that refer to each other. *)
Definition cycle : Installation := {|
  files := {[ "/opt/ros/share/p/msg/A.msg" := "B b" +:+ LF;
              "/opt/ros/share/p/msg/B.msg" := "A a" +:+ LF ]};
  get_package_share_directory := share;
|}.

(** A root with two dependencies that share a third. *)
Definition diamond : Installation := {|
  files := {[ "/opt/ros/share/p/msg/Root.msg" := "B b" +:+ LF +:+ "C c" +:+ LF;
              "/opt/ros/share/p/msg/B.msg" := "D d" +:+ LF;
              "/opt/ros/share/p/msg/C.msg" := "D d" +:+ LF;
              "/opt/ros/share/p/msg/D.msg" := "int32 x" +:+ LF ]};
  get_package_share_directory := share;
|}.

Definition add_text : string :=
  "int64 a" +:+ LF +:+ "---" +:+ LF +:+ "int64 sum" +:+ LF.

(** A service and an action, and a message that refers to a missing one. *)
Definition containers : Installation := {|
  files := {[ "/opt/ros/share/p/srv/Add.srv" := add_text;
              "/opt/ros/share/p/srv/Bad.srv" := "int64 a" +:+ LF;
              "/opt/ros/share/p/action/Nav.action" :=
                "int32 goal" +:+ LF +:+ "---" +:+ LF +:+ "int32 done" +:+ LF
                +:+ "---" +:+ LF +:+ "int32 progress" +:+ LF;
              "/opt/ros/share/p/msg/Broken.msg" := "Missing m" +:+ LF ]};
  get_package_share_directory := share;
|}.

End Examples.

(** ** Notions used to state how the state evolves *)

(** [st'] holds every entry of the cache of [st], unchanged, and its trace
    begins with the trace of [st]. *)
Definition extends (st st' : state) : Prop :=
  msg_specs_by_datatype_ st ⊆ msg_specs_by_datatype_ st' ∧
  opened st `prefix_of` opened st'.

(** The cache of [st] has a schema for every datatype of [known], with
    its dependencies in [known]. *)
Definition cached_closed (known : gset string) (st : state) : Prop :=
  ∀ x, x ∈ known →
    ∃ spec, msg_specs_by_datatype_ st !! x = Some spec ∧
            ∀ dep, dep ∈ dependencies spec → dep ∈ known.

(** * Properties *)

(** ** Strings *)

#[local] Arguments String.append !_ _ / : simpl nomatch.

Lemma append_assoc (a b c : string) : (a +:+ b) +:+ c = a +:+ b +:+ c.
Proof. induction a as [|x a IH]; simpl; [done | by rewrite IH]. Qed.

Lemma append_nil_r (a : string) : a +:+ EmptyString = a.
Proof. induction a as [|x a IH]; simpl; [done | by rewrite IH]. Qed.

Lemma append_inv_head (a b c : string) : a +:+ b = a +:+ c → b = c.
Proof. induction a as [|x a IH]; simpl; [done | intros [=]; auto]. Qed.

Lemma append_is_empty (a b : string) :
  Str.is_empty (a +:+ b) = Str.is_empty a && Str.is_empty b.
Proof. by destruct a. Qed.

Lemma is_empty_true (s : string) : Str.is_empty s = true ↔ s = EmptyString.
Proof. by destruct s. Qed.

Lemma all_chars_append p (a b : string) :
  Str.all_chars p (a +:+ b) = Str.all_chars p a && Str.all_chars p b.
Proof. induction a as [|x a IH]; simpl; [done | by rewrite IH, andb_assoc]. Qed.

Lemma has_char_append p (a b : string) :
  Str.has_char p (a +:+ b) = Str.has_char p a || Str.has_char p b.
Proof. induction a as [|x a IH]; simpl; [done | by rewrite IH, orb_assoc]. Qed.

Lemma all_chars_has_char p q (s : string) :
  (∀ c, p c = true → q c = false) →
  Str.all_chars p s = true → Str.has_char q s = false.
Proof.
  intros Hpq. induction s as [|x s IH]; simpl; [done |].
  intros [Hx Hs]%andb_prop. by rewrite (Hpq x Hx), IH.
Qed.

Lemma span_spec p (s a b : string) :
  Str.span p s = (a, b) →
  s = a +:+ b ∧ Str.all_chars p a = true ∧
  match b with EmptyString => True | String c _ => p c = false end.
Proof.
  revert a b. induction s as [|x s IH]; simpl; intros a b.
  - by intros [= <- <-].
  - destruct (p x) eqn:Hx.
    + destruct (Str.span p s) as [a' b']. intros [= <- <-].
      destruct (IH a' b' eq_refl) as (-> & Ha & Hb). simpl. by rewrite Hx.
    + intros [= <- <-]. by rewrite Hx.
Qed.

Lemma span_stop p (w : string) (c : ascii) (r : string) :
  Str.all_chars p w = true → p c = false →
  Str.span p (w +:+ String c r) = (w, String c r).
Proof.
  intros Hw Hc. induction w as [|x w IH]; simpl in *.
  - by rewrite Hc.
  - apply andb_prop in Hw as [-> Hw]. by rewrite (IH Hw).
Qed.

Lemma strip_prefix_spec (p s r : string) :
  Str.strip_prefix p s = Some r ↔ s = p +:+ r.
Proof.
  revert s. induction p as [|a p IH]; intros s; simpl.
  - split; [by intros [= ->] | by intros ->].
  - destruct s as [|b s]; [done |].
    destruct (Ascii.eqb_spec a b) as [-> | Hne].
    + rewrite IH. split; [by intros -> | by intros [= ->]].
    + split; [done | intros [= -> _]; done].
Qed.

Lemma strip_prefix_append (p r : string) : Str.strip_prefix p (p +:+ r) = Some r.
Proof. by apply strip_prefix_spec. Qed.

(** ** The datatype expression *)

Lemma word_char_not_slash c : is_word_char c = true → Ascii.eqb c "/" = false.
Proof. destruct c as [[] [] [] [] [] [] [] []]; by vm_compute. Qed.

Lemma word_char_is_type_char c : is_word_char c = true → is_type_char c = true.
Proof. destruct c as [[] [] [] [] [] [] [] []]; by vm_compute. Qed.

Lemma is_word_spec (s : string) :
  is_word s = true ↔ s ≠ EmptyString ∧ Str.all_chars is_word_char s = true.
Proof.
  unfold is_word. rewrite andb_true_iff, negb_true_iff.
  destruct s; simpl; naive_solver.
Qed.

Lemma is_word_no_slash (s : string) : is_word s = true → has_slash s = false.
Proof.
  intros [_ Hs]%is_word_spec.
  eapply all_chars_has_char; [apply word_char_not_slash | done].
Qed.

Lemma word_to_end_Some (s t : string) :
  word_to_end s = Some t ↔ s = t ∧ is_word t = true.
Proof.
  unfold word_to_end. destruct (Str.span is_word_char s) as [a b] eqn:Hspan.
  apply span_spec in Hspan as (-> & Ha & Hb). split.
  - destruct a as [|c w]; [done |]. destruct b; [|done].
    intros [= <-]. rewrite append_nil_r. split; [done |].
    by apply is_word_spec.
  - intros [Heq [Hne Ht]%is_word_spec]. destruct b as [|c b].
    + rewrite append_nil_r in Heq. subst t. by destruct a.
    + subst t. rewrite all_chars_append in Ht. simpl in Ht.
      rewrite Hb in Ht. by rewrite andb_false_r in Ht.
Qed.

Lemma type_after_Some package r p t :
  type_after package r = Some (p, t) ↔ p = package ∧ r = Some t ∧ is_word t = true.
Proof.
  unfold type_after. destruct r as [r|]; [|naive_solver].
  destruct (word_to_end r) as [t'|] eqn:Hw.
  - apply word_to_end_Some in Hw as [-> Ht']. naive_solver.
  - split; [done |]. intros (_ & [= ->] & Ht).
    assert (word_to_end t = Some t) as Hw' by by apply word_to_end_Some.
    congruence.
Qed.

Lemma or_else_Some {A} (x y : option A) (a : A) :
  or_else x y = Some a ↔ x = Some a ∨ (x = None ∧ y = Some a).
Proof. destruct x; simpl; naive_solver. Qed.

(** What the expression accepts, in terms of the text. *)
Lemma regex_match_Some_inv (datatype p t : string) :
  regex_match_MSG_DATATYPE datatype = Some (p, t) →
  datatype_shape datatype p t.
Proof.
  unfold regex_match_MSG_DATATYPE, datatype_shape.
  destruct (Str.span is_word_char datatype) as [a b] eqn:Hspan.
  apply span_spec in Hspan as (-> & Ha & Hb).
  destruct a as [|c w]; [done |]. destruct b as [|sep rest]; [done |].
  destruct (Ascii.eqb_spec sep "/") as [-> | ?]; [|done].
  assert (is_word (String c w) = true) as Hword by by apply is_word_spec.
  rewrite !or_else_Some, !type_after_Some, !strip_prefix_spec.
  intros [(-> & -> & Ht) | (_ & [(-> & -> & Ht) | (_ & [(-> & -> & Ht) | (_ & Hlast)])])].
  - split_and!; [done..|]. right. exists "msg". split; [set_solver | done].
  - split_and!; [done..|]. right. exists "srv". split; [set_solver | done].
  - split_and!; [done..|]. right. exists "action". split; [set_solver | done].
  - destruct Hlast as (-> & [= ->] & Ht). split_and!; [done..|]. by left.
Qed.

Lemma regex_match_plain (p t : string) :
  is_word p = true → is_word t = true →
  regex_match_MSG_DATATYPE (p +:+ "/" +:+ t) = Some (p, t).
Proof.
  intros Hp Ht. unfold regex_match_MSG_DATATYPE.
  pose proof Hp as [Hne Hall]%is_word_spec.
  change (p +:+ "/" +:+ t) with (p +:+ String "/" t).
  rewrite span_stop by done.
  destruct p as [|c w]; [done |]. simpl Ascii.eqb. cbv iota.
  assert (∀ q, has_slash q = true → Str.strip_prefix q t = None) as Hno.
  { intros q Hq. destruct (Str.strip_prefix q t) as [r|] eqn:Hr; [|done].
    apply strip_prefix_spec in Hr as ->.
    apply is_word_no_slash in Ht. unfold has_slash in *.
    by rewrite has_char_append, Hq in Ht. }
  rewrite !Hno by done.
  simpl. assert (word_to_end t = Some t) as -> by by apply word_to_end_Some. done.
Qed.

Lemma regex_match_infix (p infix t : string) :
  is_word p = true → is_word t = true → infix ∈ ["msg"; "srv"; "action"] →
  regex_match_MSG_DATATYPE (p +:+ "/" +:+ infix +:+ "/" +:+ t) = Some (p, t).
Proof.
  intros Hp Ht Hin. unfold regex_match_MSG_DATATYPE.
  pose proof Hp as [Hne Hall]%is_word_spec.
  change (p +:+ "/" +:+ infix +:+ "/" +:+ t)
    with (p +:+ String "/" (infix +:+ "/" +:+ t)).
  rewrite span_stop by done.
  destruct p as [|c w]; [done |]. simpl Ascii.eqb. cbv iota.
  assert (word_to_end t = Some t) as Hw by by apply word_to_end_Some.
  rewrite !elem_of_cons in Hin.
  destruct Hin as [-> | [-> | [-> | Hin]]]; [..| by apply elem_of_nil in Hin];
    simpl; by rewrite Hw.
Qed.

Lemma regex_match_Some (datatype p t : string) :
  regex_match_MSG_DATATYPE datatype = Some (p, t) ↔ datatype_shape datatype p t.
Proof.
  split; [apply regex_match_Some_inv |].
  intros (Hp & Ht & [-> | (infix & Hin & ->)]).
  - by apply regex_match_plain.
  - by apply regex_match_infix.
Qed.

(** The package of a name that starts with a word and a slash is that
    word. *)
Lemma regex_match_package (p rest p' t : string) :
  is_word p = true →
  regex_match_MSG_DATATYPE (p +:+ "/" +:+ rest) = Some (p', t) → p' = p.
Proof.
  intros [Hne Hall]%is_word_spec. unfold regex_match_MSG_DATATYPE.
  change (p +:+ "/" +:+ rest) with (p +:+ String "/" rest).
  rewrite span_stop by done.
  destruct p as [|c w]; [done |]. simpl Ascii.eqb. cbv iota.
  rewrite !or_else_Some, !type_after_Some. naive_solver.
Qed.

(** ** The ordered set *)

Lemma compare_refl (a : string) : String.compare a a = Eq.
Proof.
  pose proof (String.compare_antisym a a) as Hanti.
  by destruct (String.compare a a).
Qed.

Lemma string_lt_le (a b : string) : string_lt a b ↔ String.le a b ∧ a ≠ b.
Proof.
  unfold string_lt, String.le, String.ltb, String.leb. split.
  - intros Hlt. split; [by destruct (String.compare a b) |].
    intros ->. by rewrite compare_refl in Hlt.
  - intros [Hle Hne]. destruct (String.compare a b) eqn:Hcmp; [|done..].
    by apply String.compare_eq_iff in Hcmp.
Qed.

Lemma string_lt_irrefl (a : string) : ¬ string_lt a a.
Proof. rewrite string_lt_le. naive_solver. Qed.

Lemma string_lt_trans (a b c : string) :
  string_lt a b → string_lt b c → string_lt a c.
Proof.
  rewrite !string_lt_le. intros [Hab Hne] [Hbc _]. split; [by etrans |].
  intros ->. apply Hne. by apply (anti_symm String.le).
Qed.

(** Two strings neither of which is below the other are the same string:
    equivalent keys of the set are equal keys. *)
Lemma string_lt_trichotomy (a b : string) :
  String.ltb a b = false → String.ltb b a = false → a = b.
Proof.
  unfold String.ltb. rewrite (String.compare_antisym b a).
  destruct (String.compare a b) eqn:Hcmp; simpl; try done.
  intros _ _. by apply String.compare_eq_iff.
Qed.

Lemma elem_of_set_insert (x y : string) (s : list string) :
  y ∈ set_insert x s ↔ y = x ∨ y ∈ s.
Proof.
  induction s as [|z s IH]; simpl.
  - set_solver.
  - destruct (String.ltb x z) eqn:Hxz; [set_solver |].
    destruct (String.ltb z x) eqn:Hzx.
    + rewrite elem_of_cons, IH. set_solver.
    + rewrite (string_lt_trichotomy x z Hxz Hzx). set_solver.
Qed.

Lemma set_insert_sorted (x : string) (s : list string) :
  StronglySorted string_lt s → StronglySorted string_lt (set_insert x s).
Proof.
  induction 1 as [|z s Hs IH Hz]; simpl.
  - repeat constructor.
  - destruct (String.ltb x z) eqn:Hxz.
    + constructor; [by constructor |]. constructor; [done |].
      eapply Forall_impl; [exact Hz |]. intros w Hw.
      by apply string_lt_trans with z.
    + destruct (String.ltb z x) eqn:Hzx; [|by constructor].
      constructor; [done |]. apply Forall_forall. intros w Hw.
      apply elem_of_set_insert in Hw as [-> | Hw]; [done |].
      by eapply Forall_forall in Hz.
Qed.

Lemma sorted_NoDup (s : list string) : StronglySorted string_lt s → NoDup s.
Proof.
  induction 1 as [|z s Hs IH Hz]; constructor; [|done].
  intros Hin. eapply Forall_forall in Hz; [|exact Hin].
  by apply string_lt_irrefl in Hz.
Qed.

(** ** Dependency extraction *)

Lemma add_dependency_elem package (deps : list string) (type dep : string) :
  dep ∈ add_dependency package deps type ↔
  dep ∈ deps ∨ ((type ∉ PRIMITIVE_TYPES) ∧ dep = qualify package type).
Proof.
  unfold add_dependency, qualify. case_bool_decide as Hprim.
  - naive_solver.
  - destruct (has_slash type); rewrite elem_of_set_insert; naive_solver.
Qed.

Lemma add_dependency_sorted package (deps : list string) (type : string) :
  StronglySorted string_lt deps →
  StronglySorted string_lt (add_dependency package deps type).
Proof.
  intros Hs. unfold add_dependency. case_bool_decide; [done |].
  destruct (has_slash type); by apply set_insert_sorted.
Qed.

Lemma fold_add_dependency package (types deps : list string) :
  StronglySorted string_lt deps →
  StronglySorted string_lt (fold_left (add_dependency package) types deps) ∧
  ∀ dep, dep ∈ fold_left (add_dependency package) types deps ↔
         dep ∈ deps ∨
         ∃ type, type ∈ types ∧ (type ∉ PRIMITIVE_TYPES) ∧ dep = qualify package type.
Proof.
  revert deps. induction types as [|type types IH]; intros deps Hs; simpl.
  - split; [done |]. intros dep. set_solver.
  - destruct (IH _ (add_dependency_sorted package deps type Hs)) as [Hs' Hin].
    split; [done |]. intros dep. rewrite Hin, add_dependency_elem.
    set_solver.
Qed.

Lemma parse_dependencies_sorted (text package : string) :
  StronglySorted string_lt (parse_dependencies text package).
Proof. apply fold_add_dependency. constructor. Qed.

Lemma elem_of_parse_dependencies (text package dep : string) :
  dep ∈ parse_dependencies text package ↔
  ∃ type, type ∈ field_types text ∧ (type ∉ PRIMITIVE_TYPES) ∧
          dep = qualify package type.
Proof.
  unfold parse_dependencies.
  destruct (fold_add_dependency package (field_types text) []) as [_ Hin];
    [constructor |].
  rewrite Hin. set_solver.
Qed.

Lemma qualify_has_slash (package type : string) :
  has_slash (qualify package type) = true.
Proof.
  unfold qualify. destruct (has_slash type) eqn:Hs; [done |].
  unfold has_slash. rewrite !has_char_append. simpl. by rewrite orb_true_r.
Qed.

Lemma primitive_no_slash (type : string) :
  type ∈ PRIMITIVE_TYPES → has_slash type = false.
Proof.
  unfold PRIMITIVE_TYPES. rewrite !elem_of_cons, elem_of_nil.
  intros Hin. repeat (destruct Hin as [-> | Hin]; [by vm_compute |]). done.
Qed.

(** ** Resolution of one datatype *)

Section Resolution.

Context `{Installation}.

Lemma open_definition_eq (share_dir type datatype : string) (st : state) :
  open_definition share_dir type datatype st =
  (resolve share_dir type datatype,
   {| msg_specs_by_datatype_ := msg_specs_by_datatype_ st;
      opened := opened st ++ attempts share_dir type datatype |}).
Proof.
  unfold resolve, attempts, open_definition, ifstream_open. simpl.
  repeat (match goal with
          | |- context [files !! ?p] => destruct (files !! p) eqn:?
          end; simpl; rewrite <- ?(assoc_L (++)); try done).
Qed.

Lemma load_message_spec_hit (datatype : string) (st : state) (spec : MessageSpec) :
  msg_specs_by_datatype_ st !! datatype = Some spec →
  load_message_spec datatype st = (inr spec, st).
Proof. intros Hhit. unfold load_message_spec. by rewrite Hhit. Qed.

(** The function on a datatype that is not cached. *)
Lemma load_message_spec_miss (datatype : string) (st : state) :
  msg_specs_by_datatype_ st !! datatype = None →
  load_message_spec datatype st =
  match regex_match_MSG_DATATYPE datatype with
  | None => (inl (InvalidName datatype), st)
  | Some (package, type) =>
      match get_package_share_directory package with
      | None => (inl (PackageNotFoundError package), st)
      | Some share_dir =>
          let log := opened st ++ attempts share_dir type datatype in
          match resolve share_dir type datatype with
          | inl e =>
              (inl e, {| msg_specs_by_datatype_ := msg_specs_by_datatype_ st;
                         opened := log |})
          | inr (contents, unread) =>
              let spec :=
                MessageSpec_new
                  (if Str.is_empty contents then unread else contents) package in
              (inr spec,
               {| msg_specs_by_datatype_ :=
                    <[datatype := spec]> (msg_specs_by_datatype_ st);
                  opened := log |})
          end
      end
  end.
Proof.
  intros Hmiss. unfold load_message_spec. rewrite Hmiss.
  destruct (regex_match_MSG_DATATYPE datatype) as [[package type]|]; [|done].
  destruct (get_package_share_directory package) as [share_dir|]; [|done].
  rewrite open_definition_eq.
  destruct (resolve share_dir type datatype) as [e | [contents unread]]; [done |].
  unfold emplace. simpl. by rewrite Hmiss.
Qed.

Lemma locate_eq (datatype : string) :
  locate datatype =
  match regex_match_MSG_DATATYPE datatype with
  | None => inl (InvalidName datatype)
  | Some (package, type) =>
      match get_package_share_directory package with
      | None => inl (PackageNotFoundError package)
      | Some share_dir =>
          match resolve share_dir type datatype with
          | inl e => inl e
          | inr (contents, unread) =>
              inr (MessageSpec_new
                     (if Str.is_empty contents then unread else contents) package)
          end
      end
  end.
Proof.
  unfold locate. rewrite load_message_spec_miss by done.
  destruct (regex_match_MSG_DATATYPE datatype) as [[package type]|]; [|done].
  destruct (get_package_share_directory package) as [share_dir|]; [|done].
  by destruct (resolve share_dir type datatype) as [e | [contents unread]].
Qed.

Lemma load_message_spec_miss_value (datatype : string) (st : state) :
  msg_specs_by_datatype_ st !! datatype = None →
  fst (load_message_spec datatype st) = locate datatype.
Proof.
  intros Hmiss. rewrite load_message_spec_miss, locate_eq by done.
  destruct (regex_match_MSG_DATATYPE datatype) as [[package type]|]; [|done].
  destruct (get_package_share_directory package) as [share_dir|]; [|done].
  by destruct (resolve share_dir type datatype) as [e | [contents unread]].
Qed.

(** What a call on a datatype that is not cached does to the cache. *)
Lemma load_message_spec_miss_cache (datatype : string) (st : state) :
  msg_specs_by_datatype_ st !! datatype = None →
  msg_specs_by_datatype_ (snd (load_message_spec datatype st)) =
  match fst (load_message_spec datatype st) with
  | inl _ => msg_specs_by_datatype_ st
  | inr spec => <[datatype := spec]> (msg_specs_by_datatype_ st)
  end.
Proof.
  intros Hmiss. rewrite load_message_spec_miss by done.
  destruct (regex_match_MSG_DATATYPE datatype) as [[package type]|]; [|done].
  destruct (get_package_share_directory package) as [share_dir|]; [|done].
  by destruct (resolve share_dir type datatype) as [e | [contents unread]].
Qed.

Lemma initial_consistent : consistent initial_state.
Proof. intros datatype spec. simpl. by rewrite lookup_empty. Qed.

(** On a consistent cache the function returns what the installation
    determines, and leaves the cache consistent. *)
Lemma load_message_spec_consistent (datatype : string) (st : state) :
  consistent st →
  fst (load_message_spec datatype st) = locate datatype ∧
  consistent (snd (load_message_spec datatype st)).
Proof.
  intros Hst. destruct (msg_specs_by_datatype_ st !! datatype) as [spec|] eqn:Hlook.
  - rewrite (load_message_spec_hit _ _ _ Hlook). simpl. split; [|done].
    symmetry. by apply Hst.
  - pose proof (load_message_spec_miss_value _ _ Hlook) as Hval.
    pose proof (load_message_spec_miss_cache _ _ Hlook) as Hcache.
    split; [done |]. intros d spec. rewrite Hcache, Hval.
    destruct (locate datatype) as [e | spec'] eqn:Hloc; [apply Hst |].
    rewrite lookup_insert. case_decide as Heq; [|apply Hst].
    intros [= <-]. by subst d.
Qed.

(** A call that throws leaves the cache as it was, without an entry for
    the datatype. *)
Lemma load_message_spec_throws (datatype : string) (st st' : state) (e : exn) :
  load_message_spec datatype st = (inl e, st') →
  msg_specs_by_datatype_ st !! datatype = None ∧
  msg_specs_by_datatype_ st' = msg_specs_by_datatype_ st.
Proof.
  intros Hload.
  destruct (msg_specs_by_datatype_ st !! datatype) as [spec|] eqn:Hlook.
  - by rewrite (load_message_spec_hit _ _ _ Hlook) in Hload.
  - split; [done |].
    pose proof (load_message_spec_miss_cache _ _ Hlook) as Hcache.
    by rewrite Hload in Hcache.
Qed.

Lemma consistent_not_located (datatype : string) (st : state) (e : exn) :
  consistent st → locate datatype = inl e →
  msg_specs_by_datatype_ st !! datatype = None.
Proof.
  intros Hst Hloc.
  destruct (msg_specs_by_datatype_ st !! datatype) as [spec|] eqn:Hlook; [|done].
  apply Hst in Hlook. congruence.
Qed.

End Resolution.

(** ** The cascade of openings *)

(** Case analysis on the file that the goal looks up first. *)
Ltac case_file body :=
  match goal with
  | |- context [match files !! ?p with _ => _ end] =>
      let Hfile := fresh "Hfile" in
      destruct (files !! p) as [body|] eqn:Hfile
  end.

Section Cascade.

Context `{Installation}.

Lemma resolve_eq (share_dir type datatype : string) :
  resolve share_dir type datatype =
  match files !! (share_dir +:+ "/msg/" +:+ type +:+ ".msg") with
  | Some body => inr (EmptyString, body)
  | None =>
      match files !! (share_dir +:+ "/srv/" +:+ type +:+ ".msg") with
      | Some body => inr (EmptyString, body)
      | None =>
          match files !! (share_dir +:+ "/srv/" +:+ file_name_of type +:+ ".srv") with
          | Some content => parse_service datatype type content
          | None =>
              match files !! (share_dir +:+ "/action/" +:+ file_name_of type
                              +:+ ".action") with
              | Some content => parse_action datatype type content
              | None => inl (NotFound datatype)
              end
          end
      end
  end.
Proof.
  unfold resolve, open_definition, ifstream_open.
  repeat (match goal with
          | |- context [files !! ?p] => destruct (files !! p) eqn:?
          end; try done).
Qed.

Lemma attempts_eq (share_dir type datatype : string) :
  let msg := share_dir +:+ "/msg/" +:+ type +:+ ".msg" in
  let srv_msg := share_dir +:+ "/srv/" +:+ type +:+ ".msg" in
  let srv := share_dir +:+ "/srv/" +:+ file_name_of type +:+ ".srv" in
  let action := share_dir +:+ "/action/" +:+ file_name_of type +:+ ".action" in
  attempts share_dir type datatype =
  match files !! msg with
  | Some _ => [(msg, true)]
  | None =>
      match files !! srv_msg with
      | Some _ => [(msg, false); (srv_msg, true)]
      | None =>
          match files !! srv with
          | Some _ => [(msg, false); (srv_msg, false); (srv, true)]
          | None =>
              [(msg, false); (srv_msg, false); (srv, false);
               (action, bool_decide (is_Some (files !! action)))]
          end
      end
  end.
Proof.
  unfold attempts, open_definition, ifstream_open. simpl.
  repeat (match goal with
          | |- context [files !! ?p] => destruct (files !! p) eqn:?
          end; simpl; try done).
Qed.

Lemma elem_of_candidate_texts (x : string) :
  x ∈ candidate_texts ↔
  x = EmptyString ∨
  ∃ path body, files !! path = Some body ∧ (x = body ∨ x ∈ split_parts body).
Proof.
  unfold candidate_texts. rewrite elem_of_cons.
  apply or_iff_compat_l. rewrite list_elem_of_bind. split.
  - intros (body & Hx & Hbody).
    apply list_elem_of_fmap in Hbody as ([path body'] & -> & Hin).
    apply elem_of_map_to_list in Hin. exists path, body'. simpl in *.
    split; [done |]. by apply elem_of_cons in Hx.
  - intros (path & body & Hlook & Hx). exists body.
    split; [by apply elem_of_cons |].
    apply list_elem_of_fmap. exists (path, body). split; [done |].
    by apply elem_of_map_to_list.
Qed.

Lemma nth_elem_of (i : nat) (l : list string) :
  nth i l EmptyString = EmptyString ∨ nth i l EmptyString ∈ l.
Proof.
  revert i. induction l as [|x l IH]; intros [|i]; simpl; [by left.. | |].
  - right. by left.
  - destruct (IH i) as [-> | ?]; [by left | right; by right].
Qed.

Lemma service_contents_elem_of (type : string) (parts : list string) :
  service_contents type parts = EmptyString ∨ service_contents type parts ∈ parts.
Proof.
  unfold service_contents.
  repeat (match goal with |- context [if ?b then _ else _] => destruct b end);
    auto using nth_elem_of.
Qed.

Lemma action_contents_elem_of (type : string) (parts : list string) :
  action_contents type parts = EmptyString ∨ action_contents type parts ∈ parts.
Proof.
  unfold action_contents.
  repeat (match goal with |- context [if ?b then _ else _] => destruct b end);
    auto using nth_elem_of.
Qed.

(** The body that resolution takes is a candidate text. *)
Lemma resolve_candidate (share_dir type datatype contents unread : string) :
  resolve share_dir type datatype = inr (contents, unread) →
  (if Str.is_empty contents then unread else contents) ∈ candidate_texts.
Proof.
  rewrite resolve_eq, elem_of_candidate_texts.
  case_file body.
  { intros ?; simplify_eq/=. right. eauto. }
  case_file body.
  { intros ?; simplify_eq/=. right. eauto. }
  case_file content.
  { unfold parse_service. case_bool_decide; [done |]. intros ?; simplify_eq/=.
    destruct (service_contents_elem_of type (split_parts content)) as [-> | Hin];
      [by left |].
    destruct (Str.is_empty _); [by left | right; eauto 6]. }
  case_file content; [|done].
  unfold parse_action. case_bool_decide; [done |]. intros ?; simplify_eq/=.
  destruct (action_contents_elem_of type (split_parts content)) as [-> | Hin];
    [by left |].
  destruct (Str.is_empty _); [by left | right; eauto 6].
Qed.

(** What a successful resolution is made of. *)
Lemma locate_inr (datatype : string) (spec : MessageSpec) :
  locate datatype = inr spec →
  ∃ package type,
    regex_match_MSG_DATATYPE datatype = Some (package, type) ∧
    spec = MessageSpec_new (text spec) package ∧
    text spec ∈ candidate_texts.
Proof.
  rewrite locate_eq.
  destruct (regex_match_MSG_DATATYPE datatype) as [[package type]|]; [|done].
  destruct (get_package_share_directory package) as [share_dir|]; [|done].
  destruct (resolve share_dir type datatype) as [e | [contents unread]] eqn:Hres;
    [done |].
  intros [= <-]. exists package, type. simpl.
  split_and!; [done..|]. by eapply resolve_candidate.
Qed.

Lemma locate_inr_empty (datatype : string) (spec : MessageSpec) :
  locate datatype = inr spec → text spec = EmptyString → dependencies spec = [].
Proof.
  intros (package & type & _ & -> & _)%locate_inr. simpl. by intros ->.
Qed.

(** An error of resolution is never a schema with missing parts: the
    three kinds of failure, and the one of the package index. *)
Lemma locate_inl (datatype : string) (e : exn) :
  locate datatype = inl e →
  e = InvalidName datatype ∨ e = NotFound datatype ∨
  e = MalformedService datatype ∨ e = MalformedAction datatype ∨
  ∃ package, e = PackageNotFoundError package.
Proof.
  rewrite locate_eq.
  destruct (regex_match_MSG_DATATYPE datatype) as [[package type]|];
    [|intros [= <-]; auto].
  destruct (get_package_share_directory package) as [share_dir|];
    [|intros [= <-]; eauto 10].
  rewrite resolve_eq.
  repeat (match goal with
          | |- context [files !! ?p] => destruct (files !! p) eqn:?
          end; try done).
  - unfold parse_service. case_bool_decide; [|done]. intros [= <-]. auto.
  - unfold parse_action. case_bool_decide; [|done]. intros [= <-]. auto.
  - intros [= <-]. auto.
Qed.

End Cascade.

(** ** The walk *)

Section Walk.

Context `{Installation}.

#[local] Opaque separator.
#[local] Arguments schema_block : simpl never.
#[local] Arguments blocks : simpl never.

Lemma blocks_cons (x : string) (xs : list string) :
  blocks (x :: xs) = schema_block x +:+ blocks xs.
Proof. reflexivity. Qed.

Lemma blocks_app (xs ys : list string) :
  blocks (xs ++ ys) = blocks xs +:+ blocks ys.
Proof.
  induction xs as [|x xs IH]; [done |].
  rewrite <- app_comm_cons, !blocks_cons, IH. by rewrite append_assoc.
Qed.

(** *** The walk on a consistent state is the walk on the installation *)

Lemma for_each_dependency_agrees visit visit' (deps : list string) :
  (∀ dep l st, consistent st → agrees (visit dep l st) (visit' dep l)) →
  ∀ l st, consistent st →
    agrees (for_each_dependency visit deps l st) (for_each_located visit' deps l).
Proof.
  intros Hvisit. induction deps as [|dep deps IH]; intros l st Hst; simpl.
  - done.
  - case_bool_decide; [|by apply IH].
    set (l1 := {| result := result l; seen_deps := {[dep]} ∪ seen_deps l |}).
    pose proof (Hvisit dep l1 st Hst) as Hag.
    destruct (visit dep l1 st) as [[[e | l2] st2]|]; simpl in Hag.
    + destruct Hag as [-> Hst2]. done.
    + destruct Hag as [-> Hst2]. by apply IH.
    + by rewrite Hag.
Qed.

Lemma append_recursive_agrees (depth : nat) (datatype : string) (l : locals) (st : state) :
  consistent st →
  agrees (append_recursive depth datatype l st) (append_located depth datatype l).
Proof.
  revert datatype l st. induction depth as [|depth IH]; intros datatype l st Hst;
    simpl; [done |].
  destruct (load_message_spec_consistent datatype st Hst) as [Hval Hst'].
  destruct (load_message_spec datatype st) as [[e | spec] st']; simpl in *;
    rewrite <- Hval; [done |].
  by apply for_each_dependency_agrees.
Qed.

Lemma get_full_text_agrees (depth : nat) (root : string) (st : state) :
  consistent st →
  agrees (get_full_text depth root st) (full_text_located depth root).
Proof.
  intros Hst. unfold get_full_text, full_text_located.
  pose proof (append_recursive_agrees depth root
                {| result := EmptyString; seen_deps := {[root]} |} st Hst) as Hag.
  destruct (append_recursive _ _ _ _) as [[[e | l] st']|]; simpl in *.
  - by destruct Hag as [-> ?].
  - by destruct Hag as [-> ?].
  - by rewrite Hag.
Qed.

(** *** A deeper bound changes nothing once the walk has ended *)

Lemma for_each_located_mono visit visit' (deps : list string) :
  (∀ dep l r, visit dep l = Some r → visit' dep l = Some r) →
  ∀ l r, for_each_located visit deps l = Some r →
         for_each_located visit' deps l = Some r.
Proof.
  intros Hvisit. induction deps as [|dep deps IH]; intros l r; simpl; [done |].
  case_bool_decide; [|by apply IH].
  destruct (visit dep _) as [[e | l2]|] eqn:Hv; [| |done].
  - intros [= <-]. by rewrite (Hvisit _ _ _ Hv).
  - rewrite (Hvisit _ _ _ Hv). by apply IH.
Qed.

Lemma append_located_mono (depth depth' : nat) (datatype : string) (l : locals) r :
  depth ≤ depth' →
  append_located depth datatype l = Some r →
  append_located depth' datatype l = Some r.
Proof.
  revert depth' datatype l r.
  induction depth as [|depth IH]; intros depth' datatype l r Hle; simpl; [done |].
  destruct depth' as [|depth']; [lia |]. simpl.
  destruct (locate datatype) as [e | spec]; [done |].
  apply for_each_located_mono. intros dep l' r'. apply IH. lia.
Qed.

(** *** What a walk that returns has appended and seen *)

Lemma for_each_located_appended visit (deps : list string) :
  (∀ dep l l', Str.is_empty (result l) = false →
     visit dep l = Some (inr l') → ∃ order, appended [dep] l l' order) →
  ∀ l l', Str.is_empty (result l) = false →
    for_each_located visit deps l = Some (inr l') →
    ∃ order, appended [] l l' order ∧ ∀ dep, dep ∈ deps → dep ∈ seen_deps l'.
Proof.
  intros Hvisit. induction deps as [|dep deps IH]; intros l l' Hne; simpl.
  - intros [= <-]. exists []. unfold appended, closed_in. simpl.
    rewrite append_nil_r. split_and!; try done; try set_solver. constructor.
  - set (l1 := {| result := result l; seen_deps := {[dep]} ∪ seen_deps l |}).
    case_bool_decide as Hnew.
    + destruct (visit dep l1) as [[e | l2]|] eqn:Hv; [done | |done].
      intros Hloop.
      destruct (Hvisit dep l1 l2 Hne Hv) as (o1 & Hnd1 & Hdisj1 & Hseen1 & Hres1 & Hcl1).
      assert (Str.is_empty (result l2) = false) as Hne2.
      { rewrite Hres1, append_is_empty. simpl in *. by rewrite Hne. }
      destruct (IH l2 l' Hne2 Hloop)
        as (o2 & (Hnd2 & Hdisj2 & Hseen2 & Hres2 & Hcl2) & Hdeps).
      simpl in *. exists (dep :: o1 ++ o2). split; [split_and! |].
      * constructor.
        { rewrite elem_of_app. intros [Hin | Hin].
          - apply Hdisj1 in Hin. set_solver.
          - apply Hdisj2 in Hin. set_solver. }
        apply NoDup_app. split_and!; [done | | done].
        intros x Hx1 Hx2. apply Hdisj2 in Hx2. set_solver.
      * intros x [-> | [Hx | Hx]%elem_of_app]%elem_of_cons; [done | |].
        { apply Hdisj1 in Hx. set_solver. }
        { apply Hdisj2 in Hx. set_solver. }
      * rewrite Hseen2, Hseen1. set_solver.
      * rewrite Hres2, Hres1, append_assoc, <- blocks_app. reflexivity.
      * intros x Hx. change (x ∈ (dep :: o1) ++ o2) in Hx.
        apply elem_of_app in Hx as [Hx | Hx].
        { destruct (Hcl1 x Hx) as (spec & Hloc & Hsub). exists spec.
          split; [done |]. intros d Hd. apply Hsub in Hd. set_solver. }
        { by apply Hcl2. }
      * intros d [-> | Hd]%elem_of_cons; [set_solver | by apply Hdeps].
    + intros Hloop.
      destruct (IH l1 l' Hne Hloop)
        as (o & (Hnd & Hdisj & Hseen & Hres & Hcl) & Hdeps).
      simpl in *. exists o. split; [split_and! |]; try done.
      * intros x Hx. apply Hdisj in Hx. set_solver.
      * rewrite Hseen. set_solver.
      * intros d [-> | Hd]%elem_of_cons; [set_solver | by apply Hdeps].
Qed.

Lemma append_located_appended (depth : nat) (datatype : string) (l l' : locals) :
  Str.is_empty (result l) = false →
  append_located depth datatype l = Some (inr l') →
  ∃ order, appended [datatype] l l' order.
Proof.
  revert datatype l l'. induction depth as [|depth IH]; intros datatype l l' Hne;
    simpl; [done |].
  destruct (locate datatype) as [e | spec] eqn:Hloc; [done |].
  rewrite Hne. simpl. intros Hloop.
  apply (for_each_located_appended _ _ IH) in Hloop
    as (o & (Hnd & Hdisj & Hseen & Hres & Hcl) & Hdeps).
  2:{ simpl. rewrite !append_is_empty, Hne. done. }
  simpl in *. exists o. split_and!; try done.
  - rewrite Hres. change ([datatype] ++ o) with (datatype :: o).
    rewrite blocks_cons. unfold schema_block, text_of. rewrite Hloc.
    by rewrite !append_assoc.
  - intros x [-> | Hx]%elem_of_cons; [|by apply Hcl].
    exists spec. split; [done |]. apply Hdeps.
Qed.

(** The document of a call that returns: the text of the root, then one
    schema_block for each further datatype, no datatype twice, each of them
    resolved, with its dependencies among them. *)
Lemma full_text_located_document (depth : nat) (root doc : string) :
  full_text_located depth root = Some (inr doc) →
  ∃ order, NoDup (root :: order) ∧ doc = document root order ∧
           closed_in (list_to_set (root :: order)) (root :: order).
Proof.
  unfold full_text_located. destruct depth as [|depth]; simpl; [done |].
  destruct (locate root) as [e | spec] eqn:Hloc; [done |].
  destruct (Str.is_empty (text spec)) eqn:Hempty.
  - apply is_empty_true in Hempty.
    rewrite (locate_inr_empty _ _ Hloc Hempty), Hempty. simpl.
    intros [= <-]. exists []. unfold document, text_of. rewrite Hloc, Hempty.
    split_and!; [apply NoDup_singleton | done |].
    intros x ->%list_elem_of_singleton. exists spec. split; [done |].
    rewrite (locate_inr_empty _ _ Hloc Hempty). set_solver.
  - destruct (for_each_located _ _ _) as [[e | l']|] eqn:Hloop; [done | |done].
    intros [= <-].
    apply (for_each_located_appended _ _ (append_located_appended depth)) in Hloop
      as (o & (Hnd & Hdisj & Hseen & Hres & Hcl) & Hdeps); [|done].
    simpl in *. exists o. split_and!.
    + constructor; [|done]. intros Hin. apply Hdisj in Hin. set_solver.
    + rewrite Hres. unfold document, text_of. by rewrite Hloc.
    + intros x [-> | Hx]%elem_of_cons.
      * exists spec. split; [done |]. intros d Hd. apply Hdeps in Hd.
        rewrite Hseen in Hd. set_solver.
      * destruct (Hcl x Hx) as (spec' & Hloc' & Hsub). exists spec'.
        split; [done |]. intros d Hd. apply Hsub in Hd.
        rewrite Hseen in Hd. set_solver.
Qed.

(** *** A walk that throws *)

Lemma for_each_located_throws visit (deps : list string) :
  (∀ dep l e, visit dep l = Some (inl e) → ∃ x, locate x = inl e) →
  ∀ l e, for_each_located visit deps l = Some (inl e) → ∃ x, locate x = inl e.
Proof.
  intros Hvisit. induction deps as [|dep deps IH]; intros l e; simpl; [done |].
  case_bool_decide; [|by apply IH].
  destruct (visit dep _) as [[e' | l2]|] eqn:Hv; [| |done].
  - intros [= <-]. by eapply Hvisit.
  - by apply IH.
Qed.

Lemma append_located_throws (depth : nat) (datatype : string) (l : locals) (e : exn) :
  append_located depth datatype l = Some (inl e) → ∃ x, locate x = inl e.
Proof.
  revert datatype l e. induction depth as [|depth IH]; intros datatype l e;
    simpl; [done |].
  destruct (locate datatype) as [e' | spec] eqn:Hloc.
  - intros [= <-]. eauto.
  - by apply for_each_located_throws.
Qed.

End Walk.

(** ** Termination of the walk *)

Section Termination.

Context `{Installation}.

#[local] Opaque separator.

Lemma package_of_universe (root datatype package type : string) :
  datatype ∈ universe root →
  regex_match_MSG_DATATYPE datatype = Some (package, type) →
  package ∈ packages root.
Proof.
  unfold universe, packages. intros Hin Hmatch.
  assert (package_of datatype = Some package) as Hpkg
    by (unfold package_of; by rewrite Hmatch).
  apply elem_of_cons in Hin as [-> | Hin].
  { apply list_elem_of_omap. exists root. split; [by left | done]. }
  apply list_elem_of_bind in Hin as (p' & Hin & Hp').
  apply list_elem_of_fmap in Hin as (tok & -> & Htok).
  unfold qualify in *. destruct (has_slash tok).
  { apply list_elem_of_omap. exists tok. split; [by right | done]. }
  pose proof Hp' as (x & _ & Hx)%list_elem_of_omap.
  unfold package_of in Hx.
  destruct (regex_match_MSG_DATATYPE x) as [[px tx]|] eqn:Hmx; [|done].
  simpl in Hx. injection Hx as ->.
  apply regex_match_Some in Hmx as (Hword & _).
  by rewrite (regex_match_package _ _ _ _ Hword Hmatch).
Qed.

(** The universe holds the dependencies of its members. *)
Lemma universe_closed (root datatype : string) (spec : MessageSpec) :
  datatype ∈ universe root → locate datatype = inr spec →
  ∀ dep, dep ∈ dependencies spec → dep ∈ universe root.
Proof.
  intros Hin (package & type & Hmatch & -> & Htext)%locate_inr dep. simpl in *.
  intros (tok & Htok & _ & ->)%elem_of_parse_dependencies.
  pose proof (package_of_universe _ _ _ _ Hin Hmatch) as Hpkg.
  unfold universe. right. apply list_elem_of_bind. exists package.
  split; [|done]. apply list_elem_of_fmap. exists tok. split; [done |].
  unfold raw_types. apply list_elem_of_bind. eauto.
Qed.

Lemma for_each_located_terminates (U : gset string) visit (n : nat)
    (deps : list string) :
  (∀ dep l, dep ∈ U → size (U ∖ seen_deps l) < n →
     ∃ r, visit dep l = Some r ∧
          ∀ l', r = inr l' → seen_deps l ⊆ seen_deps l') →
  ∀ l, (∀ dep, dep ∈ deps → dep ∈ U) → size (U ∖ seen_deps l) ≤ n →
    ∃ r, for_each_located visit deps l = Some r ∧
         ∀ l', r = inr l' → seen_deps l ⊆ seen_deps l'.
Proof.
  intros Hvisit. induction deps as [|dep deps IH]; intros l Hdeps Hsize; simpl.
  - eexists. split; [done |]. by intros l' [= <-].
  - set (l1 := {| result := result l; seen_deps := {[dep]} ∪ seen_deps l |}).
    assert (∀ d, d ∈ deps → d ∈ U) as Hdeps' by (intros d Hd; apply Hdeps; by right).
    assert (size (U ∖ seen_deps l1) ≤ size (U ∖ seen_deps l)) as Hle
      by (apply subseteq_size; set_solver).
    case_bool_decide as Hnew.
    + destruct (Hvisit dep l1) as (r & Hv & Hsub).
      { apply Hdeps. by left. }
      { eapply Nat.lt_le_trans; [|exact Hsize].
        apply subset_size. simpl.
        assert (dep ∈ U) by (apply Hdeps; by left). set_solver. }
      rewrite Hv. destruct r as [e | l2].
      * eexists. split; [done |]. by intros l' [=].
      * specialize (Hsub l2 eq_refl).
        destruct (IH l2 Hdeps') as (r & Hloop & Hsub').
        { etrans; [|exact Hsize]. apply subseteq_size. set_solver. }
        exists r. split; [done |]. intros l' ->.
        specialize (Hsub' l' eq_refl). set_solver.
    + destruct (IH l1 Hdeps') as (r & Hloop & Hsub'); [lia |].
      exists r. split; [done |]. intros l' ->.
      specialize (Hsub' l' eq_refl). set_solver.
Qed.

Lemma append_located_terminates (root : string) (n : nat) :
  ∀ datatype l,
    datatype ∈ universe root →
    size (list_to_set (universe root) ∖ seen_deps l) < n →
    ∃ r, append_located n datatype l = Some r ∧
         ∀ l', r = inr l' → seen_deps l ⊆ seen_deps l'.
Proof.
  induction n as [|n IH]; intros datatype l Hin Hsize; [lia |]. simpl.
  destruct (locate datatype) as [e | spec] eqn:Hloc.
  - eexists. split; [done |]. by intros l' [=].
  - match goal with
    | |- context [for_each_located _ _ ?l1] =>
        destruct (for_each_located_terminates (list_to_set (universe root))
                    (append_located n) n (dependencies spec)) with (l := l1)
          as (r & Hloop & Hsub)
    end.
    + intros dep l' Hdep. apply IH. by apply elem_of_list_to_set in Hdep.
    + intros dep Hdep. apply elem_of_list_to_set. by eapply universe_closed.
    + by apply Nat.lt_succ_r.
    + exists r. split; [done |]. apply Hsub.
Qed.

(** With a depth of [depth_bound root] or more, the walk from [root]
    ends. *)
Lemma full_text_located_terminates (depth : nat) (root : string) :
  depth_bound root ≤ depth → ∃ r, full_text_located depth root = Some r.
Proof.
  intros Hdepth. unfold full_text_located.
  destruct (append_located_terminates root depth root
              {| result := EmptyString; seen_deps := {[root]} |})
    as (r & -> & _).
  - by left.
  - eapply Nat.lt_le_trans; [|exact Hdepth]. apply subset_size. simpl.
    assert (root ∈ universe root) by by left.
    assert (root ∈ (list_to_set (universe root) : gset string))
      by by apply elem_of_list_to_set.
    set_solver.
  - destruct r; eauto.
Qed.

Lemma full_text_located_mono (depth depth' : nat) (root : string) r :
  depth ≤ depth' →
  full_text_located depth root = Some r → full_text_located depth' root = Some r.
Proof.
  intros Hle. unfold full_text_located.
  destruct (append_located depth _ _) as [r0|] eqn:Hwalk; [|done].
  by rewrite (append_located_mono _ _ _ _ _ Hle Hwalk).
Qed.

End Termination.

(** ** What the walk reaches *)

Section Reach.

Context `{Installation}.

#[local] Opaque separator.

(** Whatever a walk adds to the seen set is reached from the datatype it
    starts at. *)
Lemma for_each_located_reach visit (deps : list string) :
  (∀ dep l l', visit dep l = Some (inr l') →
     ∀ x, x ∈ seen_deps l' → x ∈ seen_deps l ∨ rtc depends_on dep x) →
  ∀ l l', for_each_located visit deps l = Some (inr l') →
    ∀ x, x ∈ seen_deps l' →
      x ∈ seen_deps l ∨ ∃ dep, dep ∈ deps ∧ rtc depends_on dep x.
Proof.
  intros Hvisit. induction deps as [|dep deps IH]; intros l l'; simpl.
  - intros [= <-] x Hx. by left.
  - case_bool_decide as Hnew.
    + destruct (visit dep _) as [[e | l2]|] eqn:Hv; [done | |done].
      intros Hloop x Hx.
      destruct (IH _ _ Hloop x Hx) as [Hx2 | (d & Hd & Hreach)].
      * destruct (Hvisit _ _ _ Hv x Hx2) as [Hx1 | Hreach].
        { simpl in Hx1. apply elem_of_union in Hx1 as [->%elem_of_singleton | Hx1].
          - right. exists dep. split; [by left | done].
          - by left. }
        right. exists dep. split; [by left | done].
      * right. exists d. split; [by right | done].
    + intros Hloop x Hx.
      destruct (IH _ _ Hloop x Hx) as [Hx1 | (d & Hd & Hreach)].
      * left. simpl in Hx1. set_solver.
      * right. exists d. split; [by right | done].
Qed.

Lemma append_located_reach (depth : nat) (datatype : string) (l l' : locals) :
  append_located depth datatype l = Some (inr l') →
  ∀ x, x ∈ seen_deps l' → x ∈ seen_deps l ∨ rtc depends_on datatype x.
Proof.
  revert datatype l l'. induction depth as [|depth IH]; intros datatype l l';
    simpl; [done |].
  destruct (locate datatype) as [e | spec] eqn:Hloc; [done |].
  intros Hloop x Hx.
  destruct (for_each_located_reach _ _ IH _ _ Hloop x Hx)
    as [Hseen | (dep & Hdep & Hreach)]; [by left |].
  right. eapply rtc_l; [|exact Hreach]. by exists spec.
Qed.

(** The exception of a walk that throws is the one that the resolution of
    a datatype throws, and the walk reaches that datatype. *)
Lemma for_each_located_throws_reach visit (deps : list string) :
  (∀ dep l e, visit dep l = Some (inl e) →
     ∃ x, rtc depends_on dep x ∧ locate x = inl e) →
  ∀ l e, for_each_located visit deps l = Some (inl e) →
    ∃ dep x, dep ∈ deps ∧ rtc depends_on dep x ∧ locate x = inl e.
Proof.
  intros Hvisit. induction deps as [|dep deps IH]; intros l e; simpl; [done |].
  assert (for_each_located visit deps
            {| result := result l; seen_deps := {[dep]} ∪ seen_deps l |} = Some (inl e) →
          ∃ d x, d ∈ dep :: deps ∧ rtc depends_on d x ∧ locate x = inl e) as Hrest.
  { intros (d & x & Hd & Hreach & Hx)%IH. exists d, x. split; [by right | done]. }
  case_bool_decide; [|exact Hrest].
  destruct (visit dep _) as [[e' | l2]|] eqn:Hv; [| |done].
  - intros [= <-]. destruct (Hvisit _ _ _ Hv) as (x & Hreach & Hx).
    exists dep, x. split; [by left | done].
  - intros (d & x & Hd & Hreach & Hx)%IH. exists d, x. split; [by right | done].
Qed.

Lemma append_located_throws_reach (depth : nat) (datatype : string) (l : locals)
    (e : exn) :
  append_located depth datatype l = Some (inl e) →
  ∃ x, rtc depends_on datatype x ∧ locate x = inl e.
Proof.
  revert datatype l e. induction depth as [|depth IH]; intros datatype l e;
    simpl; [done |].
  destruct (locate datatype) as [e' | spec] eqn:Hloc.
  - intros [= <-]. by exists datatype.
  - intros (dep & x & Hdep & Hreach & Hx)%(for_each_located_throws_reach _ _ IH).
    exists x. split; [|done]. eapply rtc_l; [|exact Hreach]. by exists spec.
Qed.

(** The walk from the root on the installation alone, with the seen set
    it ends with. *)
Lemma append_located_root (depth : nat) (root : string) (l' : locals) :
  append_located depth root {| result := EmptyString; seen_deps := {[root]} |}
    = Some (inr l') →
  ∃ order,
    NoDup (root :: order) ∧
    seen_deps l' = list_to_set (root :: order) ∧
    result l' = document root order ∧
    closed_in (seen_deps l') (root :: order).
Proof.
  destruct depth as [|depth]; simpl; [done |].
  destruct (locate root) as [e | spec] eqn:Hloc; [done |].
  destruct (Str.is_empty (text spec)) eqn:Hempty.
  - apply is_empty_true in Hempty.
    rewrite (locate_inr_empty _ _ Hloc Hempty), Hempty. simpl.
    intros [= <-]. exists []. simpl. unfold document, text_of.
    rewrite Hloc, Hempty. split_and!; [apply NoDup_singleton | set_solver | done |].
    intros x ->%list_elem_of_singleton. exists spec. split; [done |].
    rewrite (locate_inr_empty _ _ Hloc Hempty). set_solver.
  - intros Hloop.
    apply (for_each_located_appended _ _ (append_located_appended depth)) in Hloop
      as (o & (Hnd & Hdisj & Hseen & Hres & Hcl) & Hdeps); [|done].
    simpl in *. exists o. split_and!.
    + constructor; [|done]. intros Hin. apply Hdisj in Hin. set_solver.
    + rewrite Hseen. set_solver.
    + rewrite Hres. unfold document, text_of. by rewrite Hloc.
    + intros x [-> | Hx]%elem_of_cons; [|by apply Hcl].
      exists spec. split; [done | apply Hdeps].
Qed.

(** A set of resolved datatypes that holds the dependencies of its
    members holds whatever its members depend on, however remotely. *)
Lemma closed_in_reachable (order : list string) (a x : string) :
  closed_in (list_to_set order) order →
  a ∈ order → rtc depends_on a x → x ∈ order.
Proof.
  intros Hclosed Ha Hreach. induction Hreach as [|a b x Hab _ IH]; [done |].
  apply IH. destruct Hab as (spec & Hloc & Hdep).
  destruct (Hclosed a Ha) as (spec' & Hloc' & Hsub).
  assert (spec' = spec) as -> by congruence.
  apply Hsub in Hdep. by apply elem_of_list_to_set in Hdep.
Qed.

(** The document of a call that returns: the datatypes emitted are the
    root and what it depends on, directly or not, each once, and all of
    them resolve. *)
Lemma full_text_located_reach (depth : nat) (root doc : string) :
  full_text_located depth root = Some (inr doc) →
  ∃ order,
    NoDup (root :: order) ∧ doc = document root order ∧
    (∀ x, x ∈ root :: order ↔ rtc depends_on root x) ∧
    (∀ x, x ∈ root :: order → ∃ spec, locate x = inr spec).
Proof.
  unfold full_text_located.
  destruct (append_located depth root _) as [[e | l']|] eqn:Hwalk; [done | |done].
  intros [= <-].
  destruct (append_located_root _ _ _ Hwalk) as (order & Hnd & Hseen & Hres & Hcl).
  exists order. split_and!; [done | done | |].
  - intros x. split.
    + intros Hx.
      destruct (append_located_reach _ _ _ _ Hwalk x) as [Hroot | Hreach];
        [rewrite Hseen; by apply elem_of_list_to_set | | done].
      simpl in Hroot. by apply elem_of_singleton in Hroot as ->.
    + rewrite Hseen in Hcl. intros Hreach.
      eapply closed_in_reachable; [done | by left | done].
  - intros x Hx. destruct (Hcl x Hx) as (spec & Hspec & _). eauto.
Qed.

Lemma full_text_located_throws (depth : nat) (root : string) (e : exn) :
  full_text_located depth root = Some (inl e) →
  ∃ x, rtc depends_on root x ∧ locate x = inl e.
Proof.
  unfold full_text_located.
  destruct (append_located depth root _) as [[e' | l']|] eqn:Hwalk; [|done..].
  intros [= <-]. by eapply append_located_throws_reach.
Qed.

(** When all that the root depends on resolves, the walk returns a
    document. *)
Lemma full_text_located_returns (depth : nat) (root : string) :
  depth_bound root ≤ depth →
  (∀ x, rtc depends_on root x → ∃ spec, locate x = inr spec) →
  ∃ doc, full_text_located depth root = Some (inr doc).
Proof.
  intros Hdepth Hall.
  destruct (full_text_located_terminates depth root Hdepth) as [[e | doc] Hr];
    [|eauto].
  destruct (full_text_located_throws _ _ _ Hr) as (x & Hreach & Hx).
  destruct (Hall x Hreach) as [spec Hspec]. congruence.
Qed.

(** When a datatype that the root depends on does not resolve, the walk
    throws the exception of such a datatype; of that one, when no other
    fails. *)
Lemma full_text_located_fails (depth : nat) (root datatype : string) (e : exn) :
  depth_bound root ≤ depth →
  rtc depends_on root datatype → locate datatype = inl e →
  ∃ x e', rtc depends_on root x ∧ locate x = inl e' ∧
          full_text_located depth root = Some (inl e') ∧
          ((∀ y e2, rtc depends_on root y → locate y = inl e2 → y = datatype) →
           e' = e).
Proof.
  intros Hdepth Hreach Hfail.
  destruct (full_text_located_terminates depth root Hdepth) as [[e' | doc] Hr].
  - destruct (full_text_located_throws _ _ _ Hr) as (x & Hx & Hloc).
    exists x, e'. split_and!; [done..|].
    intros Honly. assert (x = datatype) as -> by by eapply Honly. congruence.
  - apply full_text_located_reach in Hr as (order & _ & _ & Hiff & Hres).
    destruct (Hres datatype) as [spec Hspec]; [by apply Hiff | congruence].
Qed.

Lemma NoDup_split_once (x : string) (order : list string) :
  NoDup order → x ∈ order →
  ∃ before after, order = before ++ x :: after ∧ (x ∉ before) ∧ (x ∉ after).
Proof.
  intros Hnd (before & after & ->)%list_elem_of_split.
  exists before, after. split; [done |].
  apply NoDup_app in Hnd as (_ & Hdisj & Hafter).
  apply NoDup_cons in Hafter as [Hnot _]. split; [|done].
  intros Hin. apply (Hdisj x Hin). by left.
Qed.

End Reach.

(** ** A field of array type *)

Lemma word_char_not_space c : is_word_char c = true → isspace c = false.
Proof. destruct c as [[] [] [] [] [] [] [] []]; by vm_compute. Qed.

Lemma word_char_not_LF c : is_word_char c = true → Ascii.eqb c LF_char = false.
Proof. destruct c as [[] [] [] [] [] [] [] []]; by vm_compute. Qed.

Lemma all_chars_impl (p q : ascii → bool) (s : string) :
  (∀ c, p c = true → q c = true) →
  Str.all_chars p s = true → Str.all_chars q s = true.
Proof.
  intros Hpq. induction s as [|c s IH]; simpl; [done |].
  intros [Hc Hs]%andb_prop. by rewrite (Hpq c Hc), IH.
Qed.

Lemma skip_spaces_word (c : ascii) (s : string) :
  is_word_char c = true → skip_spaces (String c s) = String c s.
Proof.
  intros Hc. unfold skip_spaces. simpl. by rewrite (word_char_not_space c Hc).
Qed.

Lemma after_close_bracket_first (bound rest : string) :
  Str.has_char (λ c, Ascii.eqb c "]") bound = false →
  after_close_bracket (bound +:+ String "]" rest) = Some rest.
Proof.
  induction bound as [|c bound IH]; simpl; [done |].
  intros [-> Hbound]%orb_false_elim. by apply IH.
Qed.

Lemma regex_search_here (at_begin : bool) (s : string) r :
  match_field_here at_begin s = Some r → regex_search_FIELD_TYPE at_begin s = Some r.
Proof. intros Hhere. destruct s; simpl; by rewrite Hhere. Qed.

(** No field begins inside or at the end of a last line made of a name. *)
Lemma regex_search_name (name : string) :
  Str.all_chars is_word_char name = true →
  regex_search_FIELD_TYPE false (name +:+ LF) = None.
Proof.
  induction name as [|c name IH]; simpl; [done |].
  intros [Hc Hname]%andb_prop. by rewrite (word_char_not_LF c Hc), IH.
Qed.

(** The brackets of an array type, with whatever bound they hold, are not
    part of the field type. *)
Lemma field_types_array (type bound name : string) :
  is_word type = true →
  Str.has_char (λ c, Ascii.eqb c "]") bound = false →
  is_word name = true →
  field_types (type +:+ "[" +:+ bound +:+ "] " +:+ name +:+ LF) = [type].
Proof.
  intros [Htype_ne Htype]%is_word_spec Hbound [Hname_ne Hname]%is_word_spec.
  assert (match_field_body (type +:+ "[" +:+ bound +:+ "] " +:+ name +:+ LF)
          = Some (type, name +:+ LF)) as Hbody.
  { unfold match_field_body.
    destruct type as [|c type]; [done |]. simpl in Htype.
    apply andb_prop in Htype as [Hc Htype].
    change (String c type +:+ "[" +:+ bound +:+ "] " +:+ name +:+ LF)
      with (String c (type +:+ String "[" (bound +:+ String "]" (String " " (name +:+ LF))))).
    rewrite (skip_spaces_word c _ Hc).
    change (String c (type +:+ String "[" (bound +:+ String "]" (String " " (name +:+ LF)))))
      with (String c type +:+ String "[" (bound +:+ String "]" (String " " (name +:+ LF)))).
    rewrite span_stop; [| |done].
    2:{ simpl. rewrite (word_char_is_type_char c Hc). simpl.
        eapply all_chars_impl; [apply word_char_is_type_char | done]. }
    unfold bracket_group. simpl Ascii.eqb. cbv iota.
    rewrite (after_close_bracket_first _ _ Hbound). simpl.
    destruct name as [|d name]; [done |]. simpl in Hname.
    apply andb_prop in Hname as [Hd _].
    change (String d name +:+ LF) with (String d (name +:+ LF)).
    by rewrite (skip_spaces_word d _ Hd). }
  unfold field_types.
  destruct (String.length _) as [|n] eqn:Hlen.
  { destruct type; [done | discriminate Hlen]. }
  cbn [field_types_from].
  rewrite (regex_search_here true _ (type, name +:+ LF)).
  2:{ unfold match_field_here. by rewrite Hbody. }
  destruct n as [|n]; [done |]. cbn [field_types_from].
  by rewrite (regex_search_name name Hname).
Qed.

Lemma primitive_is_word (type : string) :
  type ∈ PRIMITIVE_TYPES → is_word type = true.
Proof.
  unfold PRIMITIVE_TYPES. rewrite !elem_of_cons, elem_of_nil.
  intros Hin. repeat (destruct Hin as [-> | Hin]; [by vm_compute |]). done.
Qed.

(** ** Dependency extraction: the statement *)

(** C5.  For every schema body and package context, the dependencies that
    [parse_dependencies] extracts form a set without duplicates; no
    primitive type name is among them, and a line that declares an array of
    a primitive type, whatever stands between the brackets, gives no
    dependency; a field type that is not primitive is present,
    qualified by the package when it has no slash and as it is written when
    it has one; and nothing else is present. *)
Theorem parse_dependencies_spec (text package_context : string) :
  let deps := parse_dependencies text package_context in
  NoDup deps ∧
  (∀ type, type ∈ PRIMITIVE_TYPES → type ∉ deps) ∧
  (∀ type, type ∈ field_types text → type ∉ PRIMITIVE_TYPES →
     if has_slash type then type ∈ deps
     else package_context +:+ "/" +:+ type ∈ deps) ∧
  (∀ dep, dep ∈ deps →
     ∃ type, type ∈ field_types text ∧ (type ∉ PRIMITIVE_TYPES) ∧
       (has_slash type = true ∧ dep = type ∨
        has_slash type = false ∧ dep = package_context +:+ "/" +:+ type)) ∧
  (∀ type bound name,
     type ∈ PRIMITIVE_TYPES →
     Str.has_char (λ c, Ascii.eqb c "]") bound = false →
     is_word name = true →
     parse_dependencies (type +:+ "[" +:+ bound +:+ "] " +:+ name +:+ LF)
       package_context = []).
Proof.
  cbv zeta. split_and!.
  - apply sorted_NoDup, parse_dependencies_sorted.
  - intros type Hprim (tok & _ & _ & ->)%elem_of_parse_dependencies.
    apply primitive_no_slash in Hprim. by rewrite qualify_has_slash in Hprim.
  - intros type Hin Hprim.
    assert (qualify package_context type ∈ parse_dependencies text package_context)
      as Hq by (apply elem_of_parse_dependencies; eauto).
    unfold qualify in Hq. by destruct (has_slash type).
  - intros dep (tok & Hin & Hprim & ->)%elem_of_parse_dependencies.
    exists tok. split_and!; [done..|]. unfold qualify.
    destruct (has_slash tok); auto.
  - intros type bound name Hprim Hbound Hname. unfold parse_dependencies.
    rewrite (field_types_array _ _ _ (primitive_is_word _ Hprim) Hbound Hname).
    simpl. unfold add_dependency. by rewrite bool_decide_true.
Qed.

(** ** Resolution: the statements *)

Section ResolutionClaims.

Context `{Installation}.

Lemma file_reads_app (cache : gmap string MessageSpec) (log more : list (string * bool)) :
  file_reads {| msg_specs_by_datatype_ := cache; opened := log ++ more |} =
  file_reads {| msg_specs_by_datatype_ := cache; opened := log |}
  + length (filter (λ o, snd o = true) more).
Proof. unfold file_reads. simpl. by rewrite filter_app, length_app. Qed.

(** A cascade that ends with a body has read exactly one file. *)
Lemma attempts_one_read (share_dir type datatype : string) (r : string * string) :
  resolve share_dir type datatype = inr r →
  length (filter (λ o, snd o = true) (attempts share_dir type datatype)) = 1.
Proof.
  rewrite resolve_eq. pose proof (attempts_eq share_dir type datatype) as Hatt.
  cbv zeta in Hatt. rewrite Hatt. clear Hatt.
  repeat (case_file body; [done |]). done.
Qed.

(** C4.  When a call of [load_message_spec] returns a schema, a second
    call with the same datatype returns the same schema, text and
    dependencies, and leaves the state as it is: the cache is unchanged and
    no file is opened, hence none is read.  When the datatype was not
    cached before the first call, that call has read one file and has
    inserted the schema under the datatype, so that the two calls
    together read exactly one file. *)
Theorem load_message_spec_twice (datatype : string) (st st1 : state)
    (spec : MessageSpec) :
  load_message_spec datatype st = (inr spec, st1) →
  load_message_spec datatype st1 = (inr spec, st1) ∧
  msg_specs_by_datatype_ st1 !! datatype = Some spec ∧
  (msg_specs_by_datatype_ st !! datatype = None →
     msg_specs_by_datatype_ st1 = <[datatype := spec]> (msg_specs_by_datatype_ st) ∧
     file_reads st1 = file_reads st + 1 ∧
     file_reads (snd (load_message_spec datatype st1)) = file_reads st + 1).
Proof.
  intros Hload.
  assert (msg_specs_by_datatype_ st1 !! datatype = Some spec ∧
          (msg_specs_by_datatype_ st !! datatype = None →
           msg_specs_by_datatype_ st1 = <[datatype := spec]> (msg_specs_by_datatype_ st) ∧
           file_reads st1 = file_reads st + 1)) as [Hcached Hmiss].
  { destruct (msg_specs_by_datatype_ st !! datatype) as [found|] eqn:Hlook.
    - rewrite (load_message_spec_hit _ _ _ Hlook) in Hload.
      injection Hload as <- <-. done.
    - rewrite load_message_spec_miss in Hload by done.
      destruct (regex_match_MSG_DATATYPE datatype) as [[package type]|]; [|done].
      destruct (get_package_share_directory package) as [share_dir|]; [|done].
      destruct (resolve share_dir type datatype) as [e | [contents unread]] eqn:Hres;
        [done |].
      injection Hload as <- <-. simpl. rewrite lookup_insert_eq.
      split; [done |]. intros _. split; [done |].
      rewrite file_reads_app, (attempts_one_read _ _ _ _ Hres).
      by destruct st. }
  pose proof (load_message_spec_hit _ _ _ Hcached) as Hsecond.
  split_and!; [done | done |]. intros Hnone.
  destruct (Hmiss Hnone) as [Hins Hreads]. by rewrite Hsecond.
Qed.

Lemma selected_contents (contents : string) :
  (if Str.is_empty contents then EmptyString else contents) = contents.
Proof. by destruct contents. Qed.

Lemma file_name_of_underscore (base rest : string) :
  Str.has_char (λ c, Ascii.eqb c "_") base = false →
  file_name_of (base +:+ "_" +:+ rest) = base.
Proof.
  intros Hbase. unfold file_name_of.
  assert (find_underscore (base +:+ "_" +:+ rest) = Some (String.length base)) as ->.
  { induction base as [|c base IH]; simpl in *; [done |].
    apply orb_false_elim in Hbase as [-> Hbase]. by rewrite IH. }
  clear Hbase. induction base as [|c base IH]; simpl in *; [done | by rewrite IH].
Qed.

Lemma file_name_of_plain (type : string) :
  Str.has_char (λ c, Ascii.eqb c "_") type = false → file_name_of type = type.
Proof.
  intros Htype. unfold file_name_of.
  assert (find_underscore type = None) as ->; [|done].
  induction type as [|c type IH]; simpl in *; [done |].
  apply orb_false_elim in Htype as [-> Htype]. by rewrite IH.
Qed.

(** C6.  For a valid datatype that is not cached, with the share
    directory [share_dir] of its package and its type name [type], the
    files are tried in this order, the first that exists being taken:
    [share_dir/msg/type.msg], whose whole contents are the body; then
    [share_dir/srv/type.msg], likewise; then [share_dir/srv/base.srv], and
    then [share_dir/action/base.action], each of them split into its
    sections; [base] is [type] up to its first underscore when it has one
    (and [type] otherwise).  When none of the four exists the call throws
    the exception that stands for NotFound. *)
Theorem resolution_order (datatype package type share_dir : string) (st : state) :
  msg_specs_by_datatype_ st !! datatype = None →
  regex_match_MSG_DATATYPE datatype = Some (package, type) →
  get_package_share_directory package = Some share_dir →
  let base := file_name_of type in
  let msg := share_dir +:+ "/msg/" +:+ type +:+ ".msg" in
  let srv_msg := share_dir +:+ "/srv/" +:+ type +:+ ".msg" in
  let srv := share_dir +:+ "/srv/" +:+ base +:+ ".srv" in
  let action := share_dir +:+ "/action/" +:+ base +:+ ".action" in
  let returned := fst (load_message_spec datatype st) in
  let trace := opened (snd (load_message_spec datatype st)) in
  (∀ b rest, type = b +:+ "_" +:+ rest →
             Str.has_char (λ c, Ascii.eqb c "_") b = false → base = b) ∧
  (Str.has_char (λ c, Ascii.eqb c "_") type = false → base = type) ∧
  (∀ body, files !! msg = Some body →
     returned = inr (MessageSpec_new body package) ∧
     trace = opened st ++ [(msg, true)]) ∧
  (files !! msg = None → ∀ body, files !! srv_msg = Some body →
     returned = inr (MessageSpec_new body package) ∧
     trace = opened st ++ [(msg, false); (srv_msg, true)]) ∧
  (files !! msg = None → files !! srv_msg = None →
   ∀ content, files !! srv = Some content →
     returned =
       match parse_service datatype type content with
       | inl e => inl e
       | inr (contents, _) => inr (MessageSpec_new contents package)
       end ∧
     trace = opened st ++ [(msg, false); (srv_msg, false); (srv, true)]) ∧
  (files !! msg = None → files !! srv_msg = None → files !! srv = None →
   ∀ content, files !! action = Some content →
     returned =
       match parse_action datatype type content with
       | inl e => inl e
       | inr (contents, _) => inr (MessageSpec_new contents package)
       end ∧
     trace = opened st ++ [(msg, false); (srv_msg, false); (srv, false);
                           (action, true)]) ∧
  (files !! msg = None → files !! srv_msg = None → files !! srv = None →
   files !! action = None →
     returned = inl (NotFound datatype) ∧
     trace = opened st ++ [(msg, false); (srv_msg, false); (srv, false);
                           (action, false)] ∧
     msg_specs_by_datatype_ (snd (load_message_spec datatype st)) =
       msg_specs_by_datatype_ st).
Proof.
  intros Hmiss Hmatch Hshare. cbv zeta.
  rewrite load_message_spec_miss, Hmatch, Hshare by done.
  pose proof (attempts_eq share_dir type datatype) as Hatt. cbv zeta in Hatt.
  rewrite resolve_eq, Hatt. clear Hatt.
  split_and!.
  - intros b rest ->. apply file_name_of_underscore.
  - apply file_name_of_plain.
  - intros body ->. done.
  - intros -> body ->. done.
  - intros -> -> content ->. unfold parse_service.
    case_bool_decide; simpl; [done |]. by rewrite selected_contents.
  - intros -> -> -> content ->. unfold parse_action.
    case_bool_decide; simpl; [done |]. by rewrite selected_contents.
  - intros -> -> -> ->. done.
Qed.

Lemma file_name_of_no_underscore (type : string) :
  Str.has_char (λ c, Ascii.eqb c "_") (file_name_of type) = false.
Proof.
  unfold file_name_of. induction type as [|c type IH]; simpl; [done |].
  destruct (Ascii.eqb c "_") eqn:Hc; simpl; [done |].
  destruct (find_underscore type) as [pos|]; simpl; by rewrite Hc.
Qed.

Lemma strip_prefix_underscore (base needle s : string) (c : ascii) :
  Str.has_char (λ c, Ascii.eqb c "_") (String c base) = false →
  Str.strip_prefix (String "_" needle) (String c base +:+ s) = None.
Proof.
  intros Hbase. apply orb_false_elim in Hbase as [Hc _].
  change (String c base +:+ s) with (String c (base +:+ s)).
  cbn [Str.strip_prefix]. by rewrite Ascii.eqb_sym, Hc.
Qed.

(** A needle that begins with an underscore occurs after a base without
    underscore exactly when it occurs in what follows the base. *)
Lemma occurs_after_plain (base needle s : string) :
  Str.has_char (λ c, Ascii.eqb c "_") base = false →
  Str.occurs (String "_" needle) (base +:+ s) = Str.occurs (String "_" needle) s.
Proof.
  induction base as [|c base IH]; [done |]. intros Hbase.
  change (String c base +:+ s) with (String c (base +:+ s)).
  cbn [Str.occurs].
  pose proof (strip_prefix_underscore base needle s c Hbase) as Hstrip.
  change (String c base +:+ s) with (String c (base +:+ s)) in Hstrip.
  rewrite Hstrip. apply IH.
  simpl in Hbase. by apply orb_false_elim in Hbase as [_ ?].
Qed.

(** C7, as amended.  When a service file is the file found, its body is
    split at every [---]; unless that gives exactly 2 parts the call
    throws the exception that stands for MalformedContainer.  Otherwise
    the selector suffix, which is what follows the name of the file in the
    type name, picks the body: [_Request] selects the first part and
    [_Result] the second; more generally a type name in which [_Request]
    occurs selects the first part and, failing that, one in which
    [_Result] occurs selects the second.  When an action file is the file
    found, the same holds with exactly 3 parts and with [_Goal], [_Result]
    and [_Feedback], tried in this order, selecting the first, second and
    third part.  A type name in which none of [_Request], [_Result] and
    [_Response], for a service, and none of [_Goal], [_Result] and
    [_Feedback], for an action, occurs does not make the call fail: the
    schema returned has an empty text.  Nothing is stated about a service
    whose type name has [_Response] and neither [_Request] nor [_Result]
    in it. *)
Theorem container_sections (datatype package type share_dir : string) (st : state) :
  msg_specs_by_datatype_ st !! datatype = None →
  regex_match_MSG_DATATYPE datatype = Some (package, type) →
  get_package_share_directory package = Some share_dir →
  files !! (share_dir +:+ "/msg/" +:+ type +:+ ".msg") = None →
  files !! (share_dir +:+ "/srv/" +:+ type +:+ ".msg") = None →
  let srv := share_dir +:+ "/srv/" +:+ file_name_of type +:+ ".srv" in
  let action := share_dir +:+ "/action/" +:+ file_name_of type +:+ ".action" in
  let returned := fst (load_message_spec datatype st) in
  let schema (body : string) : exn + MessageSpec :=
    inr (MessageSpec_new body package) in
  let selector (suffix : string) : Prop := type = file_name_of type +:+ suffix in
  (∀ content, files !! srv = Some content →
     (length (split_parts content) ≠ 2 →
        returned = inl (MalformedService datatype)) ∧
     (∀ request response, split_parts content = [request; response] →
        (selector "_Request" → returned = schema request) ∧
        (selector "_Result" → returned = schema response) ∧
        (Str.occurs "_Request" type = true → returned = schema request) ∧
        (Str.occurs "_Request" type = false → Str.occurs "_Result" type = true →
           returned = schema response) ∧
        (Str.occurs "_Request" type = false → Str.occurs "_Result" type = false →
         Str.occurs "_Response" type = false →
           returned = schema EmptyString))) ∧
  (files !! srv = None → ∀ content, files !! action = Some content →
     (length (split_parts content) ≠ 3 →
        returned = inl (MalformedAction datatype)) ∧
     (∀ goal outcome feedback, split_parts content = [goal; outcome; feedback] →
        (selector "_Goal" → returned = schema goal) ∧
        (selector "_Result" → returned = schema outcome) ∧
        (selector "_Feedback" → returned = schema feedback) ∧
        (Str.occurs "_Goal" type = true → returned = schema goal) ∧
        (Str.occurs "_Goal" type = false → Str.occurs "_Result" type = true →
           returned = schema outcome) ∧
        (Str.occurs "_Goal" type = false → Str.occurs "_Result" type = false →
         Str.occurs "_Feedback" type = true →
           returned = schema feedback) ∧
        (Str.occurs "_Goal" type = false → Str.occurs "_Result" type = false →
         Str.occurs "_Feedback" type = false →
           returned = schema EmptyString))).
Proof.
  intros Hmiss Hmatch Hshare Hmsg Hsrvmsg. cbv zeta.
  rewrite load_message_spec_miss, Hmatch, Hshare by done.
  rewrite resolve_eq, Hmsg, Hsrvmsg.
  assert (∀ needle suffix, type = file_name_of type +:+ suffix →
            Str.occurs (String "_" needle) type
            = Str.occurs (String "_" needle) suffix) as Hocc.
  { intros needle suffix Htype. rewrite Htype at 1.
    apply occurs_after_plain, file_name_of_no_underscore. }
  split.
  - intros content ->. unfold parse_service. split.
    + intros Hlen. by rewrite bool_decide_true.
    + intros request response Hparts. rewrite Hparts. simpl.
      unfold service_contents. split_and!.
      * intros Hsel. rewrite (Hocc _ _ Hsel). simpl. by rewrite selected_contents.
      * intros Hsel. rewrite !(Hocc _ _ Hsel). simpl. by rewrite selected_contents.
      * intros ->. simpl. by rewrite selected_contents.
      * intros -> ->. simpl. by rewrite selected_contents.
      * intros -> -> _. done.
  - intros -> content ->. unfold parse_action. split.
    + intros Hlen. by rewrite bool_decide_true.
    + intros goal outcome feedback Hparts. rewrite Hparts. simpl.
      unfold action_contents. split_and!.
      * intros Hsel. rewrite (Hocc _ _ Hsel). simpl. by rewrite selected_contents.
      * intros Hsel. rewrite !(Hocc _ _ Hsel). simpl. by rewrite selected_contents.
      * intros Hsel. rewrite !(Hocc _ _ Hsel). simpl. by rewrite selected_contents.
      * intros ->. simpl. by rewrite selected_contents.
      * intros -> ->. simpl. by rewrite selected_contents.
      * intros -> -> ->. simpl. by rewrite selected_contents.
      * intros -> -> ->. done.
Qed.

Lemma resolve_not_invalid_name (share_dir type datatype : string) :
  resolve share_dir type datatype ≠ inl (InvalidName datatype).
Proof.
  rewrite resolve_eq.
  repeat (case_file body; [try done |]); try done.
  - unfold parse_service. by case_bool_decide.
  - unfold parse_action. by case_bool_decide.
Qed.

(** C8.  On a consistent cache [load_message_spec] throws the exception
    that stands for InvalidName exactly when the datatype does not have
    the shape [package/Type] or [package/<infix>/Type], with the infix one
    of [msg], [srv] and [action] and both names non-empty runs of
    alphanumerics and underscores; it then throws at once: no file has
    been opened and the cache is as it was.  The expression gives, for a
    string of that shape, its first segment as the package and its last
    segment as the type, whether or not there is an infix. *)
Theorem invalid_name_iff (datatype : string) (st : state) :
  consistent st →
  (fst (load_message_spec datatype st) = inl (InvalidName datatype) ↔
   ¬ ∃ package type, datatype_shape datatype package type) ∧
  (fst (load_message_spec datatype st) = inl (InvalidName datatype) →
   snd (load_message_spec datatype st) = st) ∧
  (∀ package type,
     datatype_shape datatype package type ↔
     regex_match_MSG_DATATYPE datatype = Some (package, type)) ∧
  (∀ package type, is_word package = true → is_word type = true →
     regex_match_MSG_DATATYPE (package +:+ "/" +:+ type) = Some (package, type) ∧
     ∀ infix, infix ∈ ["msg"; "srv"; "action"] →
       regex_match_MSG_DATATYPE (package +:+ "/" +:+ infix +:+ "/" +:+ type)
       = Some (package, type)).
Proof.
  intros Hst.
  assert (fst (load_message_spec datatype st) = inl (InvalidName datatype) →
          regex_match_MSG_DATATYPE datatype = None) as Hinv.
  { destruct (load_message_spec_consistent datatype st Hst) as [-> _].
    rewrite locate_eq.
    destruct (regex_match_MSG_DATATYPE datatype) as [[package type]|]; [|done].
    destruct (get_package_share_directory package) as [share_dir|]; [|done].
    pose proof (resolve_not_invalid_name share_dir type datatype) as Hne.
    destruct (resolve share_dir type datatype) as [e | [contents unread]];
      [|done].
    intros [= ->]. done. }
  split_and!.
  - split.
    + intros Hnone%Hinv (package & type & Hshape%regex_match_Some). congruence.
    + intros Hshape.
      destruct (load_message_spec_consistent datatype st Hst) as [-> _].
      rewrite locate_eq.
      destruct (regex_match_MSG_DATATYPE datatype) as [[package type]|] eqn:Hm;
        [|done].
      destruct Hshape. exists package, type. by apply regex_match_Some.
  - intros Hthrown. pose proof (Hinv Hthrown) as Hnone.
    assert (msg_specs_by_datatype_ st !! datatype = None) as Hmiss.
    { eapply consistent_not_located; [done |].
      by rewrite locate_eq, Hnone. }
    by rewrite load_message_spec_miss, Hnone.
  - intros package type. symmetry. apply regex_match_Some.
  - intros package type Hp Ht. split.
    + by apply regex_match_plain.
    + intros infix Hin. by apply regex_match_infix.
Qed.

End ResolutionClaims.

(** ** The closure walk: the statements *)

Section WalkClaims.

Context `{Installation}.

Lemma blocks_explicit (order : list string) :
  blocks order =
  foldr (λ datatype rest,
           (LF +:+ Str.replicate 80 "=" +:+ LF +:+ "MSG: " +:+ datatype +:+ LF)
           +:+ text_of datatype +:+ rest)
        EmptyString order.
Proof.
  induction order as [|x order IH]; [done |].
  rewrite blocks_cons, IH. unfold schema_block, separator.
  cbn [foldr]. by rewrite !append_assoc.
Qed.

#[local] Opaque separator.

Lemma get_full_text_located (depth : nat) (root : string) (st : state) :
  consistent st →
  fst <$> get_full_text depth root st = full_text_located depth root ∧
  ∀ r st', get_full_text depth root st = Some (r, st') → consistent st'.
Proof.
  intros Hst. pose proof (get_full_text_agrees depth root st Hst) as Hag.
  destruct (get_full_text depth root st) as [[r st']|]; simpl in *.
  - destruct Hag as [-> Hst']. split; [done |]. by intros ? ? [= <- <-].
  - by rewrite Hag.
Qed.

Lemma get_full_text_Some (depth : nat) (root : string) (st st' : state) r :
  consistent st → get_full_text depth root st = Some (r, st') →
  full_text_located depth root = Some r ∧ consistent st'.
Proof.
  intros Hst Hcall. destruct (get_full_text_located depth root st Hst) as [Heq Hcons].
  rewrite Hcall in Heq. simpl in Heq. split; [done | by eapply Hcons].
Qed.

(** C1, as amended.  The document that a call of [get_full_text] returns
    begins with the text of the root schema, with nothing before it; then,
    for each further schema emitted, come a line feed, a line of exactly 80
    [=], a line [MSG: ] followed by the datatype, and the text of that
    schema as it was resolved, with no other character added.  Each
    schema emitted is the one its datatype resolves to. *)
Theorem get_full_text_document (depth : nat) (root doc : string) (st st' : state) :
  consistent st →
  get_full_text depth root st = Some (inr doc, st') →
  ∃ order : list string,
    (∀ datatype, datatype ∈ root :: order →
       ∃ spec, locate datatype = inr spec ∧ text_of datatype = text spec) ∧
    doc =
      text_of root +:+
      foldr (λ datatype rest,
               (LF +:+ Str.replicate 80 "=" +:+ LF +:+ "MSG: " +:+ datatype +:+ LF)
               +:+ text_of datatype +:+ rest)
            EmptyString order.
Proof.
  intros Hst Hcall.
  destruct (get_full_text_Some _ _ _ _ _ Hst Hcall) as [Hloc _].
  apply full_text_located_document in Hloc as (order & _ & -> & Hclosed).
  exists order. split.
  - intros x Hx. destruct (Hclosed x Hx) as (spec & Hspec & _).
    exists spec. split; [done |]. unfold text_of. by rewrite Hspec.
  - unfold document. by rewrite blocks_explicit.
Qed.

(** C3.  Whatever the dependencies are, cycles and diamonds included, a
    call of [get_full_text] on a consistent cache ends as soon as the
    depth allowed reaches [depth_bound root], a number that the
    installation and the root determine, and a larger depth gives the same
    outcome.  When every datatype that the root depends on, directly or
    not, resolves, the call returns a document.  The datatypes emitted in
    a document are pairwise distinct, so that no datatype has two header
    blocks, and they are the root and the datatypes that the root depends
    on, directly or not, and no other; each of the latter has exactly one
    block in the document. *)
Theorem get_full_text_terminates (depth : nat) (root : string) (st : state) :
  consistent st →
  depth_bound root ≤ depth →
  ∃ r st',
    get_full_text depth root st = Some (r, st') ∧
    (∀ depth', depth ≤ depth' →
       fst <$> get_full_text depth' root st = Some r) ∧
    ((∀ datatype, rtc depends_on root datatype →
                  ∃ spec, locate datatype = inr spec) →
     ∃ doc, r = inr doc) ∧
    ∀ doc, r = inr doc →
      ∃ order : list string,
        NoDup (root :: order) ∧
        doc = document root order ∧
        (∀ datatype, datatype ∈ root :: order ↔ rtc depends_on root datatype) ∧
        (∀ datatype, rtc depends_on root datatype → datatype ≠ root →
           ∃ before after,
             (datatype ∉ before) ∧ (datatype ∉ after) ∧
             doc = text_of root +:+ blocks before +:+ schema_block datatype
                   +:+ blocks after).
Proof.
  intros Hst Hdepth.
  destruct (full_text_located_terminates depth root Hdepth) as [r Hr].
  destruct (get_full_text_located depth root st Hst) as [Heq _].
  rewrite Hr in Heq.
  destruct (get_full_text depth root st) as [[r' st']|] eqn:Hcall; [|done].
  simpl in Heq. injection Heq as ->. exists r, st'. split_and!; [done | | |].
  - intros depth' Hle.
    destruct (get_full_text_located depth' root st Hst) as [-> _].
    by eapply full_text_located_mono.
  - intros Hall.
    destruct (full_text_located_returns depth root Hdepth Hall) as [doc Hdoc].
    exists doc. congruence.
  - intros doc ->.
    apply full_text_located_reach in Hr as (order & Hnd & -> & Hiff & _).
    exists order. split_and!; [done..|].
    intros x Hreach Hne. apply Hiff in Hreach.
    apply elem_of_cons in Hreach as [-> | Hin]; [done |].
    apply NoDup_cons in Hnd as [_ Hnd].
    destruct (NoDup_split_once x order Hnd Hin) as (before & after & -> & Hb & Ha).
    exists before, after. split_and!; [done..|].
    unfold document. by rewrite blocks_app, blocks_cons.
Qed.

(** C9.  On a consistent cache: a call of [load_message_spec] that
    throws leaves the cache as it was, with no entry for the datatype.  A
    call of [get_full_text] that throws ends with the exception that the
    resolution of a datatype throws, unchanged, and with no text; that
    datatype is the root or one that the root depends on, directly or not;
    it has no entry in the cache the call leaves behind, and resolving it
    again throws the same exception.  When the root does not resolve, the
    call throws the exception of its resolution.  When some datatype that
    the root depends on, directly or not, does not resolve, the call
    returns no document: as soon as the depth allowed lets the walk end, it
    throws the exception of such a datatype, and that of the given one when
    no other fails. *)
Theorem failure_propagates (depth : nat) (root : string) (st : state) :
  consistent st →
  (∀ datatype e st',
     load_message_spec datatype st = (inl e, st') →
     msg_specs_by_datatype_ st' = msg_specs_by_datatype_ st ∧
     msg_specs_by_datatype_ st' !! datatype = None) ∧
  (∀ e st',
     get_full_text depth root st = Some (inl e, st') →
     ∃ datatype,
       rtc depends_on root datatype ∧
       locate datatype = inl e ∧
       msg_specs_by_datatype_ st' !! datatype = None ∧
       fst (load_message_spec datatype st') = inl e) ∧
  (∀ e, locate root = inl e → 0 < depth →
        ∃ st', get_full_text depth root st = Some (inl e, st')) ∧
  (∀ datatype e,
     rtc depends_on root datatype → locate datatype = inl e →
     (∀ doc st', get_full_text depth root st ≠ Some (inr doc, st')) ∧
     (depth_bound root ≤ depth →
      ∃ failed e' st',
        rtc depends_on root failed ∧ locate failed = inl e' ∧
        get_full_text depth root st = Some (inl e', st') ∧
        ((∀ other e2, rtc depends_on root other → locate other = inl e2 →
                      other = datatype) →
         e' = e))).
Proof.
  intros Hst. split_and!.
  - intros datatype e st' Hload.
    destruct (load_message_spec_throws _ _ _ _ Hload) as [Hmiss Hsame].
    by rewrite Hsame.
  - intros e st' Hcall.
    destruct (get_full_text_Some _ _ _ _ _ Hst Hcall) as [Hloc Hst'].
    apply full_text_located_throws in Hloc as (x & Hreach & Hx). exists x.
    pose proof (consistent_not_located _ _ _ Hst' Hx) as Hnone.
    split_and!; [done..|].
    by rewrite load_message_spec_miss_value.
  - intros e Hroot Hdepth.
    destruct (get_full_text_located depth root st Hst) as [Heq _].
    assert (full_text_located depth root = Some (inl e)) as Hloc.
    { unfold full_text_located. destruct depth as [|depth]; [lia |].
      simpl. by rewrite Hroot. }
    rewrite Hloc in Heq.
    destruct (get_full_text depth root st) as [[r st']|]; [|done].
    simpl in Heq. injection Heq as ->. by exists st'.
  - intros datatype e Hreach Hfail. split.
    + intros doc st' Hcall.
      destruct (get_full_text_Some _ _ _ _ _ Hst Hcall) as [Hloc _].
      apply full_text_located_reach in Hloc as (order & _ & _ & Hiff & Hres).
      destruct (Hres datatype) as [spec Hspec]; [by apply Hiff | congruence].
    + intros Hdepth.
      destruct (full_text_located_fails depth root datatype e Hdepth Hreach Hfail)
        as (x & e' & Hx & Hloc & Hwalk & Honly).
      destruct (get_full_text_located depth root st Hst) as [Heq _].
      rewrite Hwalk in Heq.
      destruct (get_full_text depth root st) as [[r st']|]; [|done].
      simpl in Heq. injection Heq as ->. by exists x, e', st'.
Qed.

Lemma locate_sorted (datatype : string) (spec : MessageSpec) :
  locate datatype = inr spec → StronglySorted string_lt (dependencies spec).
Proof.
  intros (package & type & _ & -> & _)%locate_inr. simpl.
  apply parse_dependencies_sorted.
Qed.

(** C10.  The dependencies of a schema, be it resolved from the files or
    found in a consistent cache, are in strictly increasing lexicographic
    order, the order in which the walk goes through them.  For the same
    installation, a call of [get_full_text] on a cache that earlier calls
    have filled ends as the call with the same root on an empty cache
    does, with the same document byte for byte or the same exception; and
    a call repeated on the state that a first call has left ends as that
    first call did. *)
Theorem get_full_text_deterministic (depth : nat) (root : string) (st : state) :
  consistent st →
  (∀ datatype spec,
     locate datatype = inr spec ∨
     msg_specs_by_datatype_ st !! datatype = Some spec →
     StronglySorted string_lt (dependencies spec)) ∧
  fst <$> get_full_text depth root st =
    fst <$> get_full_text depth root initial_state ∧
  (∀ r st', get_full_text depth root st = Some (r, st') →
     fst <$> get_full_text depth root st' = Some r).
Proof.
  intros Hst. split_and!.
  - intros datatype spec [Hloc | Hloc%Hst]; by eapply locate_sorted.
  - destruct (get_full_text_located depth root st Hst) as [-> _].
    by destruct (get_full_text_located depth root initial_state
                   initial_consistent) as [-> _].
  - intros r st' Hcall.
    destruct (get_full_text_Some _ _ _ _ _ Hst Hcall) as [Hloc Hst'].
    by destruct (get_full_text_located depth root st' Hst') as [-> _].
Qed.

Lemma circle_located :
  locate "circle_msgs/Circle"
    = inr (MessageSpec_new Examples.circle_text "circle_msgs") →
  locate "geometry_msgs/Point"
    = inr (MessageSpec_new Examples.point_text "geometry_msgs") →
  full_text_located 2 "circle_msgs/Circle" =
  Some (inr (Examples.circle_text +:+ LF +:+ Str.replicate 80 "=" +:+ LF
             +:+ "MSG: geometry_msgs/Point" +:+ LF +:+ Examples.point_text)).
Proof.
  intros Hcircle Hpoint. unfold full_text_located.
  cbn [append_located]. rewrite Hcircle.
  assert (dependencies (MessageSpec_new Examples.circle_text "circle_msgs")
          = ["geometry_msgs/Point"]) as -> by by vm_compute.
  cbn [for_each_located seen_deps result].
  rewrite bool_decide_true by (by vm_compute).
  rewrite Hpoint.
  assert (dependencies (MessageSpec_new Examples.point_text "geometry_msgs")
          = []) as -> by by vm_compute.
  cbn [for_each_located seen_deps result].
  by vm_compute.
Qed.

(** C2, as amended.  When [circle_msgs/Circle] resolves to the schema of
    the text [geometry_msgs/Point position], [float64 radius] in the
    package [circle_msgs], and [geometry_msgs/Point], its only dependency,
    to the schema of the text [float64 x], [float64 y], [float64 z], which
    has no dependency, [get_full_text] returns the first text, a line
    feed, a line of exactly 80 [=], the line [MSG: geometry_msgs/Point]
    and the second text. *)
Theorem circle_full_text (depth : nat) (st : state) :
  consistent st → 2 ≤ depth →
  locate "circle_msgs/Circle"
    = inr (MessageSpec_new Examples.circle_text "circle_msgs") →
  locate "geometry_msgs/Point"
    = inr (MessageSpec_new Examples.point_text "geometry_msgs") →
  dependencies (MessageSpec_new Examples.circle_text "circle_msgs")
    = ["geometry_msgs/Point"] ∧
  dependencies (MessageSpec_new Examples.point_text "geometry_msgs") = [] ∧
  fst <$> get_full_text depth "circle_msgs/Circle" st =
  Some (inr (Examples.circle_text +:+ LF +:+ Str.replicate 80 "=" +:+ LF
             +:+ "MSG: geometry_msgs/Point" +:+ LF +:+ Examples.point_text)).
Proof.
  intros Hst Hdepth Hcircle Hpoint. split_and!; [by vm_compute.. |].
  destruct (get_full_text_located depth "circle_msgs/Circle" st Hst) as [-> _].
  eapply full_text_located_mono; [exact Hdepth |].
  by apply circle_located.
Qed.

End WalkClaims.

(** * Further properties of the code *)

(** ** The parts of a service or action file *)

Lemma append_length (a b : string) :
  String.length (a +:+ b) = String.length a + String.length b.
Proof. induction a as [|c a IH]; simpl; [done | by rewrite IH]. Qed.

Lemma extend_part_nonempty (c : ascii) (parts : list string) :
  extend_part c parts ≠ [].
Proof. by destruct parts. Qed.

Lemma split_parts_nonempty (content : string) : split_parts content ≠ [].
Proof.
  destruct content as [|c1 [|c2 [|c3 rest]]]; [done.. |].
  change (split_parts (String c1 (String c2 (String c3 rest))))
    with (if is_delimiter c1 c2 c3 then EmptyString :: split_parts rest
          else extend_part c1 (split_parts (String c2 (String c3 rest)))).
  destruct (is_delimiter c1 c2 c3); [done | apply extend_part_nonempty].
Qed.

Lemma concat_extend_part (sep : string) (c : ascii) (parts : list string) :
  parts ≠ [] →
  String.concat sep (extend_part c parts) = String c (String.concat sep parts).
Proof. destruct parts as [|p [|q ps]]; done. Qed.

Lemma concat_cons_nonempty (sep p : string) (parts : list string) :
  parts ≠ [] →
  String.concat sep (p :: parts) = p +:+ sep +:+ String.concat sep parts.
Proof. by destruct parts. Qed.

Lemma length_extend_part (c : ascii) (parts : list string) :
  parts ≠ [] → length (extend_part c parts) = length parts.
Proof. by destruct parts. Qed.

(** The two ways a step of the scan goes. *)
Lemma strip_delimiter (c1 c2 c3 : ascii) (rest : string) :
  Str.strip_prefix "---" (String c1 (String c2 (String c3 rest))) =
  if is_delimiter c1 c2 c3 then Some rest else None.
Proof.
  change (Str.strip_prefix "---" (String c1 (String c2 (String c3 rest))))
    with (if Ascii.eqb "-" c1
          then if Ascii.eqb "-" c2
               then if Ascii.eqb "-" c3 then Some rest else None
               else None
          else None).
  unfold is_delimiter.
  rewrite (Ascii.eqb_sym "-" c1), (Ascii.eqb_sym "-" c2), (Ascii.eqb_sym "-" c3).
  by destruct (Ascii.eqb c1 "-"), (Ascii.eqb c2 "-"), (Ascii.eqb c3 "-").
Qed.

Lemma split_parts_other (c1 : ascii) (rest1 : string) :
  Str.strip_prefix "---" (String c1 rest1) = None →
  split_parts (String c1 rest1) = extend_part c1 (split_parts rest1).
Proof.
  destruct rest1 as [|c2 [|c3 rest3]]; [done.. |].
  rewrite strip_delimiter. simpl. by destruct (is_delimiter c1 c2 c3).
Qed.

(** An induction that follows the scan: a text that begins with the
    delimiter hands over to the text after it, any other non-empty text to
    its tail. *)
Lemma split_parts_ind (P : string → Prop) :
  P EmptyString →
  (∀ rest, P rest → P ("---" +:+ rest)) →
  (∀ c rest, Str.strip_prefix "---" (String c rest) = None → P rest → P (String c rest)) →
  ∀ content, P content.
Proof.
  intros Hnil Hdelim Hother content.
  assert (∀ n s, String.length s < n → P s) as Hall;
    [|apply (Hall (S (String.length content))); lia].
  induction n as [|n IH]; intros s Hlen; [lia |].
  destruct s as [|c rest]; [done |].
  destruct (Str.strip_prefix "---" (String c rest)) as [after|] eqn:Hstrip.
  - apply strip_prefix_spec in Hstrip. rewrite Hstrip. apply Hdelim, IH.
    rewrite Hstrip in Hlen. simpl in Hlen. lia.
  - apply Hother; [done |]. apply IH. simpl in Hlen. lia.
Qed.

Lemma split_parts_at_delimiter (rest : string) :
  split_parts ("---" +:+ rest) = EmptyString :: split_parts rest.
Proof. done. Qed.

Lemma split_parts_join (content : string) :
  String.concat "---" (split_parts content) = content.
Proof.
  induction content as [|rest IH|c rest Hstrip IH] using split_parts_ind.
  - done.
  - rewrite split_parts_at_delimiter.
    rewrite concat_cons_nonempty by apply split_parts_nonempty.
    by rewrite IH.
  - rewrite split_parts_other by done.
    rewrite concat_extend_part by apply split_parts_nonempty.
    by rewrite IH.
Qed.

(** X1.  Joining the parts with the delimiter between them gives the
    content back: the split loses no character and adds none. *)
Theorem split_parts_concat (content : string) :
  String.concat "---" (split_parts content) = content.
Proof. apply split_parts_join. Qed.

Lemma split_parts_head (content p : string) (ps : list string) :
  split_parts content = p :: ps → ∃ rest, content = p +:+ rest.
Proof.
  intros Hparts. pose proof (split_parts_join content) as Hjoin.
  rewrite Hparts in Hjoin. destruct ps as [|q ps].
  - exists EmptyString. simpl in Hjoin. by rewrite append_nil_r.
  - rewrite concat_cons_nonempty in Hjoin by done. eauto.
Qed.

Lemma strip_prefix_None_head (needle p rest : string) :
  Str.strip_prefix needle (p +:+ rest) = None → Str.strip_prefix needle p = None.
Proof.
  revert p. induction needle as [|a needle IH]; intros p; simpl; [done |].
  destruct p as [|b p]; simpl; [done |].
  destruct (Ascii.eqb a b); [apply IH | done].
Qed.

(** X2.  No part holds the delimiter: each search takes the leftmost
    occurrence, so what lies before it has none. *)
Theorem split_parts_no_delimiter (content part : string) :
  part ∈ split_parts content → Str.occurs "---" part = false.
Proof.
  revert part.
  induction content as [|rest IH|c rest Hstrip IH] using split_parts_ind;
    intros part.
  - by intros ->%list_elem_of_singleton.
  - rewrite split_parts_at_delimiter.
    intros [-> | Hin]%elem_of_cons; [done | by apply IH].
  - rewrite split_parts_other by done.
    destruct (split_parts rest) as [|p ps] eqn:Hparts;
      [by destruct (split_parts_nonempty rest) |].
    simpl. intros [-> | Hin]%elem_of_cons.
    + destruct (split_parts_head _ _ _ Hparts) as [r ->].
      change (String c (p +:+ r)) with (String c p +:+ r) in Hstrip.
      apply strip_prefix_None_head in Hstrip.
      change (Str.occurs "---" (String c p))
        with (match Str.strip_prefix "---" (String c p) with
              | Some _ => true
              | None => Str.occurs "---" p
              end).
      rewrite Hstrip. apply IH. by left.
    + apply IH. by right.
Qed.

(** X3.  The content is left in one part exactly when the delimiter does
    not occur in it; a service or action file without a delimiter is
    therefore always refused. *)
Theorem split_parts_single (content : string) :
  length (split_parts content) = 1 ↔ Str.occurs "---" content = false.
Proof.
  induction content as [|rest IH|c rest Hstrip IH] using split_parts_ind.
  - done.
  - rewrite split_parts_at_delimiter. simpl.
    pose proof (split_parts_nonempty rest).
    destruct (split_parts rest); naive_solver.
  - rewrite split_parts_other by done.
    rewrite length_extend_part by apply split_parts_nonempty.
    change (Str.occurs "---" (String c rest))
      with (match Str.strip_prefix "---" (String c rest) with
            | Some _ => true
            | None => Str.occurs "---" rest
            end).
    by rewrite Hstrip.
Qed.

(** ** The scan for field types *)

Lemma span_length p (s a b : string) :
  Str.span p s = (a, b) → String.length s = String.length a + String.length b.
Proof. intros (-> & _ & _)%span_spec. apply append_length. Qed.

Lemma skip_spaces_length (s : string) :
  String.length (skip_spaces s) ≤ String.length s.
Proof.
  unfold skip_spaces. destruct (Str.span isspace s) as [a b] eqn:Hspan.
  apply span_length in Hspan. simpl. lia.
Qed.

Lemma skip_spaces_suffix (s : string) : ∃ spaces, s = spaces +:+ skip_spaces s.
Proof.
  unfold skip_spaces. destruct (Str.span isspace s) as [a b] eqn:Hspan.
  apply span_spec in Hspan as (-> & _ & _). by exists a.
Qed.

Lemma spaces1_suffix (s r : string) :
  spaces1 s = Some r → ∃ spaces, spaces ≠ EmptyString ∧ s = spaces +:+ r.
Proof.
  destruct s as [|c s]; simpl; [done |]. destruct (isspace c); [|done].
  intros [= <-]. destruct (skip_spaces_suffix s) as [spaces Hs].
  exists (String c spaces). split; [done |]. simpl. by rewrite <- Hs.
Qed.

Lemma after_close_bracket_suffix (s r : string) :
  after_close_bracket s = Some r → ∃ inside, s = inside +:+ r.
Proof.
  induction s as [|c s IH]; simpl; [done |].
  destruct (Ascii.eqb c "]").
  - intros [= <-]. by exists (String c EmptyString).
  - intros [inside ->]%IH. by exists (String c inside).
Qed.

Lemma bracket_group_suffix (s r : string) :
  bracket_group s = Some r → ∃ brackets, s = brackets +:+ r.
Proof.
  destruct s as [|c s]; simpl; [done |]. destruct (Ascii.eqb c "["); [|done].
  intros [inside ->]%after_close_bracket_suffix. by exists (String c inside).
Qed.

(** What a match at the head of [s] is made of: blanks, the field type,
    which is a non-empty run of the characters of the class, whatever
    follows it up to the last blank of the match, and that is not empty,
    and the text left. *)
Lemma match_field_body_inv (s type rest : string) :
  match_field_body s = Some (type, rest) →
  type ≠ EmptyString ∧ Str.all_chars is_type_char type = true ∧
  ∃ before between,
    between ≠ EmptyString ∧ s = before +:+ type +:+ between +:+ rest.
Proof.
  unfold match_field_body.
  destruct (skip_spaces_suffix s) as [before Hs].
  destruct (Str.span is_type_char (skip_spaces s)) as [t after] eqn:Hspan.
  apply span_spec in Hspan as (Hafter & Hall & _).
  destruct t as [|c t]; [done |].
  destruct (bracket_group after) as [r1|] eqn:Hgroup.
  - destruct (spaces1 r1) as [r2|] eqn:Hsp1; simpl.
    + intros [= <- <-]. split_and!; [done..|].
      apply bracket_group_suffix in Hgroup as [brackets ->].
      apply spaces1_suffix in Hsp1 as (spaces & Hne & ->).
      exists before, (brackets +:+ spaces). split.
      * destruct brackets; [done | done].
      * rewrite Hs at 1. rewrite Hafter. by rewrite !append_assoc.
    + destruct (spaces1 after) as [r2|] eqn:Hsp2; [|done].
      intros [= <- <-]. split_and!; [done..|].
      apply spaces1_suffix in Hsp2 as (spaces & Hne & ->).
      exists before, spaces. split; [done |].
      rewrite Hs at 1. by rewrite Hafter.
  - simpl. destruct (spaces1 after) as [r2|] eqn:Hsp2; [|done].
    intros [= <- <-]. split_and!; [done..|].
    apply spaces1_suffix in Hsp2 as (spaces & Hne & ->).
    exists before, spaces. split; [done |].
    rewrite Hs at 1. by rewrite Hafter.
Qed.

Lemma match_field_here_inv (at_begin : bool) (s type rest : string) :
  match_field_here at_begin s = Some (type, rest) →
  type ≠ EmptyString ∧ Str.all_chars is_type_char type = true ∧
  ∃ before between,
    between ≠ EmptyString ∧ s = before +:+ type +:+ between +:+ rest.
Proof.
  unfold match_field_here.
  assert (match s with
          | String c s' => if Ascii.eqb c LF_char then match_field_body s' else None
          | EmptyString => None
          end = Some (type, rest) →
          type ≠ EmptyString ∧ Str.all_chars is_type_char type = true ∧
          ∃ before between,
            between ≠ EmptyString ∧ s = before +:+ type +:+ between +:+ rest)
    as Hnewline.
  { destruct s as [|c s]; [done |]. destruct (Ascii.eqb c LF_char); [|done].
    intros (Hne & Hall & before & between & Hbetween & ->)%match_field_body_inv.
    split_and!; [done..|]. by exists (String c before), between. }
  destruct at_begin; [|done].
  destruct (match_field_body s) as [[t r]|] eqn:Hbody; simpl; [|done].
  intros [= -> ->]. by apply match_field_body_inv.
Qed.

Lemma regex_search_inv (at_begin : bool) (s type rest : string) :
  regex_search_FIELD_TYPE at_begin s = Some (type, rest) →
  type ≠ EmptyString ∧ Str.all_chars is_type_char type = true ∧
  ∃ before between,
    between ≠ EmptyString ∧ s = before +:+ type +:+ between +:+ rest.
Proof.
  revert at_begin. induction s as [|c s IH]; intros at_begin; simpl.
  - destruct (match_field_here at_begin EmptyString) as [[t r]|] eqn:Hhere; [|done].
    intros [= -> ->]. by apply match_field_here_inv in Hhere.
  - destruct (match_field_here at_begin (String c s)) as [[t r]|] eqn:Hhere.
    + intros [= -> ->]. by apply match_field_here_inv in Hhere.
    + intros (Hne & Hall & before & between & Hbetween & ->)%IH.
      split_and!; [done..|]. by exists (String c before), between.
Qed.

Lemma nonempty_length (s : string) : s ≠ EmptyString → 0 < String.length s.
Proof. destruct s; [done | simpl; lia]. Qed.

Lemma regex_search_length (at_begin : bool) (s type rest : string) :
  regex_search_FIELD_TYPE at_begin s = Some (type, rest) →
  String.length rest + 2 ≤ String.length s.
Proof.
  intros (Hne & _ & before & between & Hbetween & ->)%regex_search_inv.
  rewrite !append_length.
  apply nonempty_length in Hne. apply nonempty_length in Hbetween. lia.
Qed.

Lemma regex_search_empty (at_begin : bool) :
  regex_search_FIELD_TYPE at_begin EmptyString = None.
Proof. by destruct at_begin. Qed.

Lemma field_types_from_enough (n m : nat) (at_begin : bool) (s : string) :
  String.length s ≤ n → String.length s ≤ m →
  field_types_from n at_begin s = field_types_from m at_begin s.
Proof.
  revert m at_begin s. induction n as [|n IH]; intros m at_begin s Hn Hm.
  - destruct s; [|simpl in Hn; lia].
    destruct m; cbn [field_types_from]; [done | by rewrite regex_search_empty].
  - destruct m as [|m].
    + destruct s; [|simpl in Hm; lia].
      cbn [field_types_from]. by rewrite regex_search_empty.
    + cbn [field_types_from].
      destruct (regex_search_FIELD_TYPE at_begin s) as [[t r]|] eqn:Hsearch;
        [|done].
      apply regex_search_length in Hsearch. f_equal. apply IH; lia.
Qed.

Lemma field_types_from_count (n : nat) (at_begin : bool) (s : string) :
  2 * length (field_types_from n at_begin s) ≤ String.length s.
Proof.
  revert at_begin s. induction n as [|n IH]; intros at_begin s;
    cbn [field_types_from]; [simpl; lia |].
  destruct (regex_search_FIELD_TYPE at_begin s) as [[t r]|] eqn:Hsearch;
    simpl; [|lia].
  apply regex_search_length in Hsearch. specialize (IH false r). lia.
Qed.

(** X4.  The loop over the matches ends by itself: a match uses up at
    least two characters, a field type and a blank, so a text holds at most
    half as many field types as it has characters, and letting the loop run
    longer than the text is long finds nothing more. *)
Theorem field_types_bounded (text : string) :
  2 * length (field_types text) ≤ String.length text ∧
  ∀ n, String.length text ≤ n → field_types_from n true text = field_types text.
Proof.
  split; [apply field_types_from_count |].
  intros n Hn. by apply field_types_from_enough.
Qed.

Lemma occurs_here (needle rest : string) : Str.occurs needle (needle +:+ rest) = true.
Proof.
  destruct needle as [|c needle]; [by destruct rest |].
  change (Str.occurs (String c needle) (String c needle +:+ rest))
    with (match Str.strip_prefix (String c needle) (String c needle +:+ rest) with
          | Some _ => true
          | None => Str.occurs (String c needle) (needle +:+ rest)
          end).
  by rewrite strip_prefix_append.
Qed.

Lemma occurs_later (needle before s : string) :
  Str.occurs needle s = true → Str.occurs needle (before +:+ s) = true.
Proof.
  intros Hs. induction before as [|c before IH]; [done |].
  change (Str.occurs needle (String c before +:+ s))
    with (match Str.strip_prefix needle (String c (before +:+ s)) with
          | Some _ => true
          | None => Str.occurs needle (before +:+ s)
          end).
  rewrite IH. by destruct (Str.strip_prefix _ _).
Qed.

Lemma field_types_from_inv (n : nat) (at_begin : bool) (s type : string) :
  type ∈ field_types_from n at_begin s →
  type ≠ EmptyString ∧ Str.all_chars is_type_char type = true ∧
  Str.occurs type s = true.
Proof.
  revert at_begin s. induction n as [|n IH]; intros at_begin s;
    cbn [field_types_from].
  - by intros ?%elem_of_nil.
  - destruct (regex_search_FIELD_TYPE at_begin s) as [[t r]|] eqn:Hsearch;
      [|by intros ?%elem_of_nil].
    apply regex_search_inv in Hsearch
      as (Hne & Hall & before & between & _ & ->).
    intros [-> | Hin]%elem_of_cons.
    + split_and!; [done..|]. apply occurs_later, occurs_here.
    + destruct (IH _ _ Hin) as (Hne' & Hall' & Hocc). split_and!; [done..|].
      by do 3 apply occurs_later.
Qed.

(** X5.  Every field type that the scan extracts is a non-empty run of
    letters, digits, underscores and slashes that occurs in the text: it
    holds no blank, no bracket and nothing of what stands between
    brackets. *)
Theorem field_types_shape (text type : string) :
  type ∈ field_types text →
  type ≠ EmptyString ∧ Str.all_chars is_type_char type = true ∧
  Str.occurs type text = true.
Proof. apply field_types_from_inv. Qed.

(** ** The dependencies as a set *)

(** X6.  The dependencies of a text depend on which field types occur in
    it and on nothing else: neither their order nor their repetition
    matters. *)
Theorem parse_dependencies_set (text1 text2 package_context : string) :
  (∀ type, type ∈ field_types text1 ↔ type ∈ field_types text2) →
  parse_dependencies text1 package_context = parse_dependencies text2 package_context.
Proof.
  intros Hsame.
  apply (StronglySorted_unique_strong string_lt);
    [|apply parse_dependencies_sorted.. |].
  { intros a b _ _ Hab Hba. destruct (string_lt_irrefl a).
    by apply string_lt_trans with b. }
  apply NoDup_Permutation; [apply sorted_NoDup, parse_dependencies_sorted.. |].
  intros dep. rewrite !elem_of_parse_dependencies. naive_solver.
Qed.

Lemma type_char_word c :
  is_type_char c = true → Ascii.eqb c "/" = false → is_word_char c = true.
Proof. destruct c as [[] [] [] [] [] [] [] []]; by vm_compute. Qed.

Lemma type_chars_word (type : string) :
  Str.all_chars is_type_char type = true → has_slash type = false →
  Str.all_chars is_word_char type = true.
Proof.
  unfold has_slash. induction type as [|c type IH]; simpl; [done |].
  intros [Hc Htype]%andb_prop [Hslash Hrest]%orb_false_elim.
  by rewrite (type_char_word c Hc Hslash), IH.
Qed.

(** X7.  In a schema of a package whose name is a word, a dependency is
    either a field type written with a slash, kept as it is, or the package
    and a field type without slash; the latter is a valid datatype name,
    which [MSG_DATATYPE_REGEX] takes apart into that package and that type:
    a reference within the package is looked up in the package of the schema
    that makes it. *)
Theorem dependency_package (text package_context dep : string) :
  is_word package_context = true →
  dep ∈ parse_dependencies text package_context →
  (∃ type, type ∈ field_types text ∧ has_slash type = true ∧ dep = type) ∨
  (∃ type, type ∈ field_types text ∧ has_slash type = false ∧
           dep = package_context +:+ "/" +:+ type ∧
           regex_match_MSG_DATATYPE dep = Some (package_context, type)).
Proof.
  intros Hpackage (type & Hin & _ & ->)%elem_of_parse_dependencies.
  unfold qualify. destruct (has_slash type) eqn:Hslash; [left; eauto |].
  right. exists type. split_and!; [done..|].
  apply regex_match_plain; [done |].
  destruct (field_types_from_inv _ _ _ _ Hin) as (Hne & Hall & _).
  apply is_word_spec. split; [done |]. by apply type_chars_word.
Qed.

(** ** How the state evolves *)

(** The bookkeeping of the loop over the dependencies, on sets: [seen] and
    [cached] before a dependency is visited, [seen2] after the visit and
    [seen'] at the end of the loop. *)
Lemma loop_sets_dom (seen seen2 seen' cached : gset string) (dep : string) :
  dep ∉ seen → {[dep]} ∪ seen ⊆ seen2 → seen2 ⊆ seen' →
  (cached ∪ {[dep]} ∪ (seen2 ∖ ({[dep]} ∪ seen))) ∪ (seen' ∖ seen2)
  = cached ∪ (seen' ∖ seen).
Proof.
  intros Hnew Hsub1 Hsub2. apply set_eq. intros x.
  destruct (decide (x = dep)) as [-> | Hne]; [set_solver |].
  destruct (decide (x ∈ seen2)); set_solver.
Qed.

Lemma loop_sets_disjoint (seen seen2 seen' cached : gset string) (dep : string) :
  ({[dep]} ∪ (seen2 ∖ ({[dep]} ∪ seen))) ∖ cached
  ## (seen' ∖ seen2) ∖ (cached ∪ {[dep]} ∪ (seen2 ∖ ({[dep]} ∪ seen))).
Proof. set_solver. Qed.

Lemma loop_sets_union (seen seen2 seen' cached : gset string) (dep : string) :
  dep ∉ seen → {[dep]} ∪ seen ⊆ seen2 → seen2 ⊆ seen' →
  (({[dep]} ∪ (seen2 ∖ ({[dep]} ∪ seen))) ∖ cached)
  ∪ ((seen' ∖ seen2) ∖ (cached ∪ {[dep]} ∪ (seen2 ∖ ({[dep]} ∪ seen))))
  = (seen' ∖ seen) ∖ cached.
Proof.
  intros Hnew Hsub1 Hsub2. apply set_eq. intros x.
  destruct (decide (x = dep)) as [-> | Hne]; [set_solver |].
  destruct (decide (x ∈ seen2)); set_solver.
Qed.

Lemma visit_sets_dom (seen seen' cached : gset string) (datatype : string) :
  ({[datatype]} ∪ cached) ∪ (seen' ∖ seen)
  = cached ∪ {[datatype]} ∪ (seen' ∖ seen).
Proof. set_solver. Qed.

Lemma visit_sets_disjoint (seen seen' cached : gset string) (datatype : string) :
  {[datatype]} ∖ cached ## (seen' ∖ seen) ∖ ({[datatype]} ∪ cached).
Proof. set_solver. Qed.

Lemma visit_sets_union (seen seen' cached : gset string) (datatype : string) :
  ({[datatype]} ∖ cached) ∪ ((seen' ∖ seen) ∖ ({[datatype]} ∪ cached))
  = ({[datatype]} ∪ (seen' ∖ seen)) ∖ cached.
Proof.
  apply set_eq. intros x.
  destruct (decide (x = datatype)) as [-> | Hne]; set_solver.
Qed.

Section Evolution.

Context `{Installation}.

#[local] Opaque separator.

Lemma extends_refl (st : state) : extends st st.
Proof. by split. Qed.

Lemma extends_trans (st1 st2 st3 : state) :
  extends st1 st2 → extends st2 st3 → extends st1 st3.
Proof. intros [? ?] [? ?]. split; by etrans. Qed.

Lemma load_message_spec_extends (datatype : string) (st : state) :
  extends st (snd (load_message_spec datatype st)).
Proof.
  destruct (msg_specs_by_datatype_ st !! datatype) as [spec|] eqn:Hlook.
  - rewrite (load_message_spec_hit _ _ _ Hlook). apply extends_refl.
  - rewrite load_message_spec_miss by done.
    destruct (regex_match_MSG_DATATYPE datatype) as [[package type]|];
      [|apply extends_refl].
    destruct (get_package_share_directory package) as [share_dir|];
      [|apply extends_refl].
    destruct (resolve share_dir type datatype) as [e | [contents unread]];
      (split; simpl; [|by apply prefix_app_r]); [done |].
    by apply insert_subseteq.
Qed.

Lemma load_message_spec_cached (datatype : string) (st st1 : state) (spec : MessageSpec) :
  load_message_spec datatype st = (inr spec, st1) →
  msg_specs_by_datatype_ st1 !! datatype = Some spec.
Proof.
  intros Hload.
  destruct (msg_specs_by_datatype_ st !! datatype) as [found|] eqn:Hlook.
  - rewrite (load_message_spec_hit _ _ _ Hlook) in Hload. by simplify_eq.
  - pose proof (load_message_spec_miss_cache _ _ Hlook) as Hcache.
    rewrite Hload in Hcache. simpl in Hcache. rewrite Hcache.
    apply lookup_insert_eq.
Qed.

Lemma for_each_dependency_extends visit (deps : list string) :
  (∀ dep l st r st', visit dep l st = Some (r, st') → extends st st') →
  ∀ l st r st',
    for_each_dependency visit deps l st = Some (r, st') → extends st st'.
Proof.
  intros Hvisit. induction deps as [|dep deps IH]; intros l st r st'; simpl.
  - intros [= <- <-]. apply extends_refl.
  - case_bool_decide; [|by apply IH].
    destruct (visit dep _ st) as [[[e | l2] st2]|] eqn:Hv; [| |done].
    + intros [= <- <-]. by eapply Hvisit.
    + intros Hloop. eapply extends_trans; [by eapply Hvisit | by eapply IH].
Qed.

Lemma append_recursive_extends (depth : nat) (datatype : string) (l : locals)
    (st : state) r (st' : state) :
  append_recursive depth datatype l st = Some (r, st') → extends st st'.
Proof.
  revert datatype l st r st'.
  induction depth as [|depth IH]; intros datatype l st r st'; simpl; [done |].
  pose proof (load_message_spec_extends datatype st) as Hload.
  destruct (load_message_spec datatype st) as [[e | spec] st1]; simpl in Hload.
  - by intros [= <- <-].
  - intros Hloop. eapply extends_trans; [exact Hload |].
    by eapply for_each_dependency_extends.
Qed.

(** X8.  However a call of [get_full_text] ends, with a document or with
    an exception, the cache it leaves holds every entry that was there
    before, unchanged, and the trace of the files opened has only grown at
    its end: no entry is ever replaced or removed. *)
Theorem get_full_text_extends (depth : nat) (root : string) (st st' : state) r :
  get_full_text depth root st = Some (r, st') →
  (∀ datatype spec,
     msg_specs_by_datatype_ st !! datatype = Some spec →
     msg_specs_by_datatype_ st' !! datatype = Some spec) ∧
  opened st `prefix_of` opened st'.
Proof.
  unfold get_full_text.
  destruct (append_recursive _ _ _ _) as [[[e | l] st1]|] eqn:Hwalk; [| |done];
    intros [= <- <-]; apply append_recursive_extends in Hwalk as [Hcache Htrace];
    (split; [|done]); intros datatype spec Hlook; by eapply lookup_weaken.
Qed.

(** *** What a walk that returns has cached *)

Lemma for_each_dependency_cached visit (deps : list string) :
  (∀ dep l st l' st',
     visit dep l st = Some (inr l', st') → dep ∈ seen_deps l →
     (∀ x, x ∈ seen_deps l → x ≠ dep → is_Some (msg_specs_by_datatype_ st !! x)) →
     ∀ x, x ∈ seen_deps l' → is_Some (msg_specs_by_datatype_ st' !! x)) →
  ∀ l st l' st',
    for_each_dependency visit deps l st = Some (inr l', st') →
    (∀ x, x ∈ seen_deps l → is_Some (msg_specs_by_datatype_ st !! x)) →
    ∀ x, x ∈ seen_deps l' → is_Some (msg_specs_by_datatype_ st' !! x).
Proof.
  intros Hvisit. induction deps as [|dep deps IH]; intros l st l' st'; simpl.
  - by intros [= <- <-].
  - case_bool_decide as Hnew.
    + destruct (visit dep _ st) as [[[e | l2] st2]|] eqn:Hv; [done | |done].
      intros Hloop Hseen. eapply IH; [exact Hloop |].
      eapply Hvisit; [exact Hv | set_solver |].
      simpl. intros x Hx Hne. apply Hseen. set_solver.
    + intros Hloop Hseen. eapply IH; [exact Hloop |].
      simpl. intros x Hx. apply Hseen. set_solver.
Qed.

Lemma append_recursive_cached (depth : nat) (datatype : string) (l : locals)
    (st : state) (l' : locals) (st' : state) :
  append_recursive depth datatype l st = Some (inr l', st') →
  datatype ∈ seen_deps l →
  (∀ x, x ∈ seen_deps l → x ≠ datatype →
        is_Some (msg_specs_by_datatype_ st !! x)) →
  ∀ x, x ∈ seen_deps l' → is_Some (msg_specs_by_datatype_ st' !! x).
Proof.
  revert datatype l st l' st'.
  induction depth as [|depth IH]; intros datatype l st l' st'; simpl; [done |].
  pose proof (load_message_spec_extends datatype st) as [Hsub _].
  destruct (load_message_spec datatype st) as [[e | spec] st1] eqn:Hload; [done |].
  apply load_message_spec_cached in Hload. simpl in Hsub.
  intros Hloop Hin Hseen.
  eapply (for_each_dependency_cached _ _ IH); [exact Hloop |].
  simpl. intros x Hx. destruct (decide (x = datatype)) as [-> | Hne]; [done |].
  destruct (Hseen x Hx Hne) as [found Hfound]. exists found.
  by eapply lookup_weaken.
Qed.

(** *** A walk through what is cached *)

Lemma load_message_spec_known (known : gset string) (datatype : string) (st : state) :
  cached_closed known st → datatype ∈ known →
  ∃ spec, load_message_spec datatype st = (inr spec, st) ∧
          ∀ dep, dep ∈ dependencies spec → dep ∈ known.
Proof.
  intros Hknown Hin. destruct (Hknown datatype Hin) as (spec & Hlook & Hdeps).
  exists spec. split; [by apply load_message_spec_hit | done].
Qed.

Lemma for_each_dependency_known (known : gset string) visit (deps : list string) :
  (∀ dep l st o, cached_closed known st → dep ∈ known →
                 visit dep l st = Some o → snd o = st) →
  ∀ l st o,
    cached_closed known st → (∀ dep, dep ∈ deps → dep ∈ known) →
    for_each_dependency visit deps l st = Some o → snd o = st.
Proof.
  intros Hvisit. induction deps as [|dep deps IH]; intros l st o Hknown Hdeps; simpl.
  - by intros [= <-].
  - assert (∀ d, d ∈ deps → d ∈ known) as Hdeps'
      by (intros d Hd; apply Hdeps; by right).
    case_bool_decide; [|by apply IH].
    destruct (visit dep _ st) as [[[e | l2] st2]|] eqn:Hv; [| |done].
    + intros [= <-]. eapply Hvisit; [done | apply Hdeps; by left | done].
    + assert (st2 = st) as ->
        by (eapply (Hvisit _ _ _ _ Hknown) in Hv; [done | apply Hdeps; by left]).
      by apply IH.
Qed.

Lemma append_recursive_known (known : gset string) (depth : nat)
    (datatype : string) (l : locals) (st : state) o :
  cached_closed known st → datatype ∈ known →
  append_recursive depth datatype l st = Some o → snd o = st.
Proof.
  revert datatype l st o.
  induction depth as [|depth IH]; intros datatype l st o Hknown Hin; simpl; [done |].
  destruct (load_message_spec_known known datatype st Hknown Hin)
    as (spec & -> & Hdeps).
  by apply (for_each_dependency_known known _ _ IH).
Qed.

(** *** The files that a walk reads *)

Lemma load_message_spec_reads (datatype : string) (st st1 : state) (spec : MessageSpec) :
  load_message_spec datatype st = (inr spec, st1) →
  dom (msg_specs_by_datatype_ st1) = {[datatype]} ∪ dom (msg_specs_by_datatype_ st) ∧
  file_reads st1 =
    file_reads st + size ({[datatype]} ∖ dom (msg_specs_by_datatype_ st)).
Proof.
  intros Hload.
  destruct (msg_specs_by_datatype_ st !! datatype) as [found|] eqn:Hlook.
  - rewrite (load_message_spec_hit _ _ _ Hlook) in Hload. injection Hload as <- <-.
    assert (datatype ∈ dom (msg_specs_by_datatype_ st)) as Hdom
      by (apply elem_of_dom; eauto).
    split; [set_solver |].
    assert ({[datatype]} ∖ dom (msg_specs_by_datatype_ st) = (∅ : gset string))
      as -> by set_solver.
    rewrite size_empty. lia.
  - assert (datatype ∉ dom (msg_specs_by_datatype_ st)) as Hdom
      by by apply not_elem_of_dom.
    assert ({[datatype]} ∖ dom (msg_specs_by_datatype_ st) = ({[datatype]} : gset string))
      as -> by set_solver.
    rewrite size_singleton.
    rewrite load_message_spec_miss in Hload by done.
    destruct (regex_match_MSG_DATATYPE datatype) as [[package type]|]; [|done].
    destruct (get_package_share_directory package) as [share_dir|]; [|done].
    destruct (resolve share_dir type datatype) as [e | [contents unread]] eqn:Hres;
      [done |].
    injection Hload as <- <-. simpl. split; [by rewrite dom_insert_L |].
    rewrite file_reads_app, (attempts_one_read _ _ _ _ Hres). by destruct st.
Qed.

Lemma for_each_dependency_reads visit (deps : list string) :
  (∀ dep l st l' st',
     visit dep l st = Some (inr l', st') → dep ∈ seen_deps l →
     seen_deps l ⊆ seen_deps l' ∧
     dom (msg_specs_by_datatype_ st') =
       dom (msg_specs_by_datatype_ st) ∪ {[dep]} ∪ (seen_deps l' ∖ seen_deps l) ∧
     file_reads st' =
       file_reads st +
       size (({[dep]} ∪ (seen_deps l' ∖ seen_deps l))
             ∖ dom (msg_specs_by_datatype_ st))) →
  ∀ l st l' st',
    for_each_dependency visit deps l st = Some (inr l', st') →
    seen_deps l ⊆ seen_deps l' ∧
    dom (msg_specs_by_datatype_ st') =
      dom (msg_specs_by_datatype_ st) ∪ (seen_deps l' ∖ seen_deps l) ∧
    file_reads st' =
      file_reads st +
      size ((seen_deps l' ∖ seen_deps l) ∖ dom (msg_specs_by_datatype_ st)).
Proof.
  intros Hvisit. induction deps as [|dep deps IH]; intros l st l' st'.
  - intros [= <- <-]. split_and!; [done | |].
    + rewrite difference_diag_L. by rewrite (right_id_L ∅ (∪)).
    + rewrite difference_diag_L, difference_disjoint_L by apply disjoint_empty_l.
      rewrite size_empty. lia.
  - cbn [for_each_dependency]. cbv zeta. case_bool_decide as Hnew.
    + destruct (visit dep _ st) as [[[e | l2] st2]|] eqn:Hv; [done | |done].
      intros Hloop.
      destruct (Hvisit _ _ _ _ _ Hv) as (Hsub1 & Hdom1 & Hreads1);
        [apply elem_of_union_l; by apply elem_of_singleton |].
      destruct (IH _ _ _ _ Hloop) as (Hsub2 & Hdom2 & Hreads2).
      cbn [seen_deps] in Hsub1, Hdom1, Hreads1.
      split_and!.
      * etrans; [|exact Hsub2]. etrans; [|exact Hsub1]. apply union_subseteq_r.
      * rewrite Hdom2, Hdom1. by apply loop_sets_dom.
      * rewrite Hreads2, Hreads1, <- Nat.add_assoc. f_equal.
        rewrite Hdom1, <- size_union by apply loop_sets_disjoint.
        f_equal. by apply loop_sets_union.
    + intros Hloop. destruct (IH _ _ _ _ Hloop) as (Hsub & Hdom & Hreads).
      cbn [seen_deps] in Hsub, Hdom, Hreads.
      assert ({[dep]} ∪ seen_deps l = seen_deps l) as Hsame
        by by apply subseteq_union_1_L, singleton_subseteq_l.
      rewrite Hsame in Hsub. rewrite Hsame in Hdom. rewrite Hsame in Hreads.
      done.
Qed.

Lemma append_recursive_reads (depth : nat) (datatype : string) (l : locals)
    (st : state) (l' : locals) (st' : state) :
  append_recursive depth datatype l st = Some (inr l', st') →
  datatype ∈ seen_deps l →
  seen_deps l ⊆ seen_deps l' ∧
  dom (msg_specs_by_datatype_ st') =
    dom (msg_specs_by_datatype_ st) ∪ {[datatype]} ∪ (seen_deps l' ∖ seen_deps l) ∧
  file_reads st' =
    file_reads st +
    size (({[datatype]} ∪ (seen_deps l' ∖ seen_deps l))
          ∖ dom (msg_specs_by_datatype_ st)).
Proof.
  revert datatype l st l' st'.
  induction depth as [|depth IH]; intros datatype l st l' st'; [done |].
  cbn [append_recursive].
  destruct (load_message_spec datatype st) as [[e | spec] st1] eqn:Hload; [done |].
  apply load_message_spec_reads in Hload as [Hdom1 Hreads1].
  cbv zeta. intros Hloop Hin.
  apply (for_each_dependency_reads _ _ IH) in Hloop as (Hsub & Hdom2 & Hreads2).
  cbn [seen_deps] in Hsub, Hdom2, Hreads2.
  split_and!; [done | |].
  - rewrite Hdom2, Hdom1. apply visit_sets_dom.
  - rewrite Hreads2, Hreads1, <- Nat.add_assoc. f_equal.
    rewrite Hdom1, <- size_union by apply visit_sets_disjoint.
    f_equal. apply visit_sets_union.
Qed.

(** What a call that returns a document leaves behind. *)
Lemma get_full_text_returns (depth : nat) (root doc : string) (st st' : state) :
  consistent st →
  get_full_text depth root st = Some (inr doc, st') →
  ∃ order,
    NoDup (root :: order) ∧ doc = document root order ∧
    closed_in (list_to_set (root :: order)) (root :: order) ∧
    consistent st' ∧
    cached_closed (list_to_set (root :: order)) st' ∧
    full_text_located depth root = Some (inr doc) ∧
    file_reads st' =
      file_reads st +
      size (list_to_set (root :: order) ∖ dom (msg_specs_by_datatype_ st)).
Proof.
  intros Hst Hcall. pose proof Hcall as Hcall'. unfold get_full_text in Hcall.
  pose proof (append_recursive_agrees depth root
                {| result := EmptyString; seen_deps := {[root]} |} st Hst) as Hag.
  destruct (append_recursive _ _ _ _) as [[[e | l'] st1]|] eqn:Hwalk; [done | |done].
  injection Hcall as <- <-. destruct Hag as [Hloc Hst'].
  destruct (append_located_root _ _ _ Hloc) as (order & Hnd & Hseen & Hres & Hcl).
  rewrite Hseen in Hcl.
  pose proof (append_recursive_cached _ _ _ _ _ _ Hwalk) as Hcached.
  pose proof (append_recursive_reads _ _ _ _ _ _ Hwalk) as Hreads.
  exists order. split_and!; [done..| | |].
  - intros x Hx. destruct (Hcached ltac:(set_solver) ltac:(set_solver) x) as [found Hfound];
      [by rewrite Hseen |].
    exists found. split; [done |].
    apply elem_of_list_to_set in Hx. destruct (Hcl x Hx) as (spec & Hspec & Hdeps).
    apply Hst' in Hfound. assert (found = spec) as -> by congruence. exact Hdeps.
  - unfold full_text_located. by rewrite Hloc.
  - destruct Hreads as (Hsub & _ & ->); [cbn [seen_deps]; by apply elem_of_singleton |].
    cbn [seen_deps] in *. f_equal. f_equal. rewrite <- Hseen.
    f_equal. symmetry. by apply union_difference_L.
Qed.

(** X9.  When a call of [get_full_text] on a consistent cache returns a
    document, the cache it leaves holds the schema of the root and of every
    datatype that the root depends on, directly or not, each as the
    installation determines it. *)
Theorem get_full_text_caches (depth : nat) (root doc : string) (st st' : state) :
  consistent st →
  get_full_text depth root st = Some (inr doc, st') →
  ∀ datatype, rtc depends_on root datatype →
    ∃ spec, msg_specs_by_datatype_ st' !! datatype = Some spec ∧
            locate datatype = inr spec.
Proof.
  intros Hst Hcall datatype Hreach.
  destruct (get_full_text_returns _ _ _ _ _ Hst Hcall)
    as (order & _ & _ & Hcl & Hst' & Hknown & _ & _).
  assert (datatype ∈ root :: order) as Hin
    by (eapply closed_in_reachable; [done | by left | done]).
  destruct (Hknown datatype) as (spec & Hlook & _); [by apply elem_of_list_to_set |].
  exists spec. split; [done | by apply Hst'].
Qed.

(** X10.  A call of [get_full_text] that returns a document can be
    repeated on the state it has left: the second call returns the same
    document and leaves the state as it is, so that it opens no file and
    changes no entry of the cache. *)
Theorem get_full_text_again (depth : nat) (root doc : string) (st st' : state) :
  consistent st →
  get_full_text depth root st = Some (inr doc, st') →
  get_full_text depth root st' = Some (inr doc, st').
Proof.
  intros Hst Hcall.
  destruct (get_full_text_returns _ _ _ _ _ Hst Hcall)
    as (order & _ & _ & _ & Hst' & Hknown & Hloc & _).
  pose proof (get_full_text_agrees depth root st' Hst') as Hag.
  unfold get_full_text in *.
  destruct (append_recursive depth root _ st') as [[r2 st2]|] eqn:Hwalk.
  - apply (append_recursive_known _ _ _ _ _ _ Hknown) in Hwalk as Hsame;
      [|apply elem_of_list_to_set; by left].
    simpl in Hsame. subst st2.
    destruct r2 as [e | l2]; simpl in Hag; destruct Hag as [Hag _]; congruence.
  - simpl in Hag. congruence.
Qed.

(** X11.  A call of [get_full_text] that returns a document has read one
    file for each schema of the document that was not cached before, and no
    other; on an empty cache that is exactly one file for each schema of
    the document. *)
Theorem get_full_text_reads (depth : nat) (root doc : string) (st st' : state) :
  consistent st →
  get_full_text depth root st = Some (inr doc, st') →
  ∃ order : list string,
    NoDup (root :: order) ∧
    doc = document root order ∧
    file_reads st' =
      file_reads st +
      size (list_to_set (root :: order) ∖ dom (msg_specs_by_datatype_ st)) ∧
    (msg_specs_by_datatype_ st = ∅ →
     file_reads st' = file_reads st + S (length order)).
Proof.
  intros Hst Hcall.
  destruct (get_full_text_returns _ _ _ _ _ Hst Hcall)
    as (order & Hnd & Hdoc & _ & _ & _ & _ & Hreads).
  exists order. split_and!; [done..|].
  intros Hempty. rewrite Hreads, Hempty, dom_empty_L, difference_empty_L.
  by rewrite size_list_to_set.
Qed.

(** *** Two names of one schema *)

Lemma resolve_alias (share_dir type d1 d2 : string) (r : string * string) :
  resolve share_dir type d1 = inr r → resolve share_dir type d2 = inr r.
Proof.
  rewrite !resolve_eq.
  repeat (case_file body; [try done |]); try done.
  - unfold parse_service. by case_bool_decide.
  - unfold parse_action. by case_bool_decide.
Qed.

Lemma locate_alias (d1 d2 package type : string) (spec : MessageSpec) :
  regex_match_MSG_DATATYPE d1 = Some (package, type) →
  regex_match_MSG_DATATYPE d2 = Some (package, type) →
  locate d1 = inr spec → locate d2 = inr spec.
Proof.
  intros Hd1 Hd2. rewrite !locate_eq, Hd1, Hd2.
  destruct (get_package_share_directory package) as [share_dir|]; [|done].
  destruct (resolve share_dir type d1) as [e | [contents unread]] eqn:Hres; [done |].
  by rewrite (resolve_alias _ _ _ d2 _ Hres).
Qed.

(** X12.  The cache is keyed by the datatype as it is written.  Two
    datatype names that [MSG_DATATYPE_REGEX] takes apart into the same
    package and type, such as a name with and one without the infix, are
    resolved to the same schema; yet when the first is cached and the second
    is not, loading the second reads a file again and adds a second entry,
    with the same schema. *)
Theorem load_message_spec_alias (d1 d2 package type : string) (spec : MessageSpec)
    (st st1 : state) :
  regex_match_MSG_DATATYPE d1 = Some (package, type) →
  regex_match_MSG_DATATYPE d2 = Some (package, type) →
  consistent st →
  load_message_spec d1 st = (inr spec, st1) →
  locate d2 = inr spec ∧
  (msg_specs_by_datatype_ st1 !! d2 = None →
   ∃ st2,
     load_message_spec d2 st1 = (inr spec, st2) ∧
     file_reads st2 = S (file_reads st1) ∧
     msg_specs_by_datatype_ st2 = <[d2 := spec]> (msg_specs_by_datatype_ st1)).
Proof.
  intros Hd1 Hd2 Hst Hload.
  destruct (load_message_spec_consistent d1 st Hst) as [Hloc _].
  rewrite Hload in Hloc. simpl in Hloc. symmetry in Hloc.
  pose proof (locate_alias _ _ _ _ _ Hd1 Hd2 Hloc) as Hloc2.
  split; [done |]. intros Hmiss.
  pose proof (load_message_spec_miss_value d2 st1 Hmiss) as Hvalue.
  pose proof (load_message_spec_miss_cache d2 st1 Hmiss) as Hcache.
  destruct (load_message_spec d2 st1) as [r st2] eqn:Hload2.
  simpl in Hvalue, Hcache. rewrite Hvalue, Hloc2 in Hcache. subst r.
  rewrite Hloc2 in Hload2 |- *.
  exists st2. split_and!; [done | | done].
  destruct (load_message_spec_reads _ _ _ _ Hload2) as [_ ->].
  rewrite difference_disjoint_L, size_singleton; [lia |].
  apply disjoint_singleton_l. by apply not_elem_of_dom.
Qed.

End Evolution.

(** ** The statements on the example installations *)

Module Checks.

Import Examples.

(** The cycle: each of the two messages is emitted once. *)
Example cycle_full_text :
  fst <$> get_full_text (H := cycle) 3 "p/A" initial_state =
  Some (inr ("B b" +:+ LF +:+ LF +:+ Str.replicate 80 "=" +:+ LF
             +:+ "MSG: p/B" +:+ LF +:+ "A a" +:+ LF)).
Proof. by vm_compute. Qed.

(** The diamond: the shared dependency is emitted once, after the first
    of the two schemas that refer to it. *)
Example diamond_full_text :
  fst <$> get_full_text (H := diamond) 4 "p/Root" initial_state =
  Some (inr ("B b" +:+ LF +:+ "C c" +:+ LF
             +:+ LF +:+ Str.replicate 80 "=" +:+ LF +:+ "MSG: p/B" +:+ LF
             +:+ "D d" +:+ LF
             +:+ LF +:+ Str.replicate 80 "=" +:+ LF +:+ "MSG: p/D" +:+ LF
             +:+ "int32 x" +:+ LF
             +:+ LF +:+ Str.replicate 80 "=" +:+ LF +:+ "MSG: p/C" +:+ LF
             +:+ "D d" +:+ LF)).
Proof. by vm_compute. Qed.

(** The three sections of an action file, each under its datatype. *)
Example action_sections :
  locate (H := containers) "p/Nav_Goal"
    = inr (MessageSpec_new ("int32 goal" +:+ LF) "p") ∧
  locate (H := containers) "p/Nav_Result"
    = inr (MessageSpec_new (LF +:+ "int32 done" +:+ LF) "p") ∧
  locate (H := containers) "p/Nav_Feedback"
    = inr (MessageSpec_new (LF +:+ "int32 progress" +:+ LF) "p").
Proof. by vm_compute. Qed.

(** A service file with a single section. *)
Example malformed_service :
  locate (H := containers) "p/Bad_Request" = inl (MalformedService "p/Bad_Request").
Proof. by vm_compute. Qed.

(** The name that ROS 2 gives to the response of a service is none of
    the names that the service branch tests. *)
Example service_response :
  locate (H := containers) "p/Add_Result"
    = inr (MessageSpec_new (LF +:+ "int64 sum" +:+ LF) "p") ∧
  locate (H := containers) "p/Add_Response" = inr (MessageSpec_new EmptyString "p").
Proof. by vm_compute. Qed.

(** A message that refers to a missing one. *)
Example broken_full_text :
  fst <$> get_full_text (H := containers) 3 "p/Broken" initial_state =
  Some (inl (NotFound "p/Missing")).
Proof. by vm_compute. Qed.

(** One step of the dependency relation from a datatype that resolves:
    the step leads to one of the dependencies computed. *)
Ltac step_from Hdep :=
  let spec := fresh "spec" in
  let Hloc := fresh "Hloc" in
  let Hin := fresh "Hin" in
  destruct Hdep as (spec & Hloc & Hin);
  vm_compute in Hloc; simplify_eq; vm_compute in Hin;
  repeat (apply elem_of_cons in Hin as [-> | Hin]);
  [set_solver.. | by apply elem_of_nil in Hin].

(** What the root of the diamond depends on, directly or not. *)
Lemma diamond_reachable (x : string) :
  rtc (depends_on (H := diamond)) "p/Root" x →
  x ∈ ["p/Root"; "p/B"; "p/C"; "p/D"].
Proof.
  revert x. apply rtc_ind_r; [set_solver |].
  intros y z _ Hdep IH.
  repeat (apply elem_of_cons in IH as [-> | IH]);
    [step_from Hdep.. | by apply elem_of_nil in IH].
Qed.

Lemma diamond_resolves (x : string) :
  rtc (depends_on (H := diamond)) "p/Root" x →
  ∃ spec, locate (H := diamond) x = inr spec.
Proof.
  intros Hreach%diamond_reachable.
  repeat (apply elem_of_cons in Hreach as [-> | Hreach]);
    [eexists; vm_compute; reflexivity.. | by apply elem_of_nil in Hreach].
Qed.

Lemma diamond_shared :
  rtc (depends_on (H := diamond)) "p/Root" "p/D".
Proof.
  apply rtc_l with "p/B"; [|apply rtc_once].
  - exists (MessageSpec_new ("B b" +:+ LF +:+ "C c" +:+ LF) "p").
    split; [vm_compute; reflexivity |]. vm_compute. set_solver.
  - exists (MessageSpec_new ("D d" +:+ LF) "p").
    split; [vm_compute; reflexivity |]. vm_compute. set_solver.
Qed.

(** The message that refers to a missing one: what it depends on. *)
Lemma broken_reachable (x : string) :
  rtc (depends_on (H := containers)) "p/Broken" x →
  x ∈ ["p/Broken"; "p/Missing"].
Proof.
  revert x. apply rtc_ind_r; [set_solver |].
  intros y z _ Hdep IH.
  apply elem_of_cons in IH as [-> | IH]; [step_from Hdep |].
  apply elem_of_cons in IH as [-> | IH]; [|by apply elem_of_nil in IH].
  destruct Hdep as (spec & Hloc & _). vm_compute in Hloc. discriminate Hloc.
Qed.

Lemma broken_missing :
  rtc (depends_on (H := containers)) "p/Broken" "p/Missing".
Proof.
  apply rtc_once. exists (MessageSpec_new ("Missing m" +:+ LF) "p").
  split; [vm_compute; reflexivity |]. vm_compute. set_solver.
Qed.

Lemma broken_only (other : string) (e : exn) :
  rtc (depends_on (H := containers)) "p/Broken" other →
  locate (H := containers) other = inl e →
  other = "p/Missing".
Proof.
  intros Hreach%broken_reachable Hloc.
  apply elem_of_cons in Hreach as [-> | Hreach];
    [vm_compute in Hloc; discriminate Hloc |].
  apply elem_of_cons in Hreach as [-> | Hreach]; [done |].
  by apply elem_of_nil in Hreach.
Qed.

(** The circle depends on the point. *)
Lemma circle_point :
  rtc (depends_on (H := circle)) "circle_msgs/Circle" "geometry_msgs/Point".
Proof.
  apply rtc_once. exists (MessageSpec_new circle_text "circle_msgs").
  split; [vm_compute; reflexivity |]. vm_compute. apply list_elem_of_here.
Qed.

End Checks.


(** ** The statements at concrete inputs *)

Module Concrete.

Import Examples.

Lemma load_message_spec_twice_witness :
  let spec := MessageSpec_new circle_text "circle_msgs" in
  let st1 := snd (load_message_spec (H := circle) "circle_msgs/Circle" initial_state) in
  load_message_spec (H := circle) "circle_msgs/Circle" initial_state = (inr spec, st1) ∧
  load_message_spec (H := circle) "circle_msgs/Circle" st1 = (inr spec, st1) ∧
  file_reads st1 = 1.
Proof.
  assert (load_message_spec (H := circle) "circle_msgs/Circle" initial_state =
          (inr (MessageSpec_new circle_text "circle_msgs"),
           snd (load_message_spec (H := circle) "circle_msgs/Circle" initial_state)))
    as Hfirst by (vm_compute; reflexivity).
  destruct (load_message_spec_twice (H := circle) _ _ _ _ Hfirst)
    as (Hsecond & _ & Hmiss).
  cbv zeta. split_and!; [exact Hfirst | exact Hsecond |].
  apply Hmiss. vm_compute. reflexivity.
Defined.

Lemma resolution_order_witness :
  msg_specs_by_datatype_ initial_state !! "circle_msgs/Circle" = None ∧
  regex_match_MSG_DATATYPE "circle_msgs/Circle" = Some ("circle_msgs", "Circle") ∧
  get_package_share_directory (Installation := circle) "circle_msgs"
    = Some "/opt/ros/share/circle_msgs" ∧
  fst (load_message_spec (H := circle) "circle_msgs/Circle" initial_state)
    = inr (MessageSpec_new circle_text "circle_msgs") ∧
  opened (snd (load_message_spec (H := circle) "circle_msgs/Circle" initial_state))
    = [("/opt/ros/share/circle_msgs/msg/Circle.msg", true)].
Proof.
  assert (msg_specs_by_datatype_ initial_state !! "circle_msgs/Circle" = None)
    as Hmiss by (vm_compute; reflexivity).
  assert (regex_match_MSG_DATATYPE "circle_msgs/Circle"
          = Some ("circle_msgs", "Circle")) as Hmatch by (vm_compute; reflexivity).
  assert (get_package_share_directory (Installation := circle) "circle_msgs"
          = Some "/opt/ros/share/circle_msgs") as Hshare by (vm_compute; reflexivity).
  destruct (resolution_order (H := circle) _ _ _ _ _ Hmiss Hmatch Hshare)
    as (_ & _ & Hmsg & _).
  destruct (Hmsg circle_text) as [Hreturned Htrace]; [vm_compute; reflexivity |].
  split_and!; [exact Hmiss | exact Hmatch | exact Hshare | exact Hreturned |].
  exact Htrace.
Defined.

Lemma container_sections_witness :
  msg_specs_by_datatype_ initial_state !! "p/Add_Result" = None ∧
  regex_match_MSG_DATATYPE "p/Add_Result" = Some ("p", "Add_Result") ∧
  get_package_share_directory (Installation := containers) "p"
    = Some "/opt/ros/share/p" ∧
  files (Installation := containers) !! "/opt/ros/share/p/msg/Add_Result.msg" = None ∧
  files (Installation := containers) !! "/opt/ros/share/p/srv/Add_Result.msg" = None ∧
  files (Installation := containers) !! "/opt/ros/share/p/srv/Add.srv"
    = Some add_text ∧
  split_parts add_text = ["int64 a" +:+ LF; LF +:+ "int64 sum" +:+ LF] ∧
  "Add_Result" = file_name_of "Add_Result" +:+ "_Result" ∧
  fst (load_message_spec (H := containers) "p/Add_Result" initial_state)
    = inr (MessageSpec_new (LF +:+ "int64 sum" +:+ LF) "p").
Proof.
  assert (msg_specs_by_datatype_ initial_state !! "p/Add_Result" = None)
    as Hmiss by (vm_compute; reflexivity).
  assert (regex_match_MSG_DATATYPE "p/Add_Result" = Some ("p", "Add_Result"))
    as Hmatch by (vm_compute; reflexivity).
  assert (get_package_share_directory (Installation := containers) "p"
          = Some "/opt/ros/share/p") as Hshare by (vm_compute; reflexivity).
  assert (files (Installation := containers)
            !! ("/opt/ros/share/p" +:+ "/msg/" +:+ "Add_Result" +:+ ".msg") = None)
    as Hmsg by (vm_compute; reflexivity).
  assert (files (Installation := containers)
            !! ("/opt/ros/share/p" +:+ "/srv/" +:+ "Add_Result" +:+ ".msg") = None)
    as Hsrvmsg by (vm_compute; reflexivity).
  assert (files (Installation := containers)
            !! ("/opt/ros/share/p" +:+ "/srv/" +:+ file_name_of "Add_Result"
                +:+ ".srv") = Some add_text)
    as Hsrv by (vm_compute; reflexivity).
  assert (split_parts add_text = ["int64 a" +:+ LF; LF +:+ "int64 sum" +:+ LF])
    as Hparts by (vm_compute; reflexivity).
  assert ("Add_Result" = file_name_of "Add_Result" +:+ "_Result")
    as Hselector by (vm_compute; reflexivity).
  split_and!; [exact Hmiss | exact Hmatch | exact Hshare | exact Hmsg
               | exact Hsrvmsg | exact Hsrv | exact Hparts | exact Hselector |].
  destruct (container_sections (H := containers) _ _ _ _ _
              Hmiss Hmatch Hshare Hmsg Hsrvmsg) as (Hservice & _).
  destruct (Hservice add_text Hsrv) as (_ & Hsections).
  destruct (Hsections _ _ Hparts) as (_ & Hresult & _).
  exact (Hresult Hselector).
Defined.

Lemma invalid_name_iff_witness :
  consistent (H := circle) initial_state ∧
  fst (load_message_spec (H := circle) "circle_msgs//Circle" initial_state)
    = inl (InvalidName "circle_msgs//Circle") ∧
  ¬ ∃ package type, datatype_shape "circle_msgs//Circle" package type.
Proof.
  assert (fst (load_message_spec (H := circle) "circle_msgs//Circle" initial_state)
          = inl (InvalidName "circle_msgs//Circle")) as Hthrown
    by (vm_compute; reflexivity).
  split_and!; [apply initial_consistent | exact Hthrown |].
  by apply (invalid_name_iff (H := circle) "circle_msgs//Circle" initial_state
              initial_consistent).
Defined.


Lemma get_full_text_document_witness :
  consistent (H := circle) initial_state ∧
  ∃ doc st',
    get_full_text (H := circle) 2 "circle_msgs/Circle" initial_state
      = Some (inr doc, st') ∧
    ∃ order : list string,
      doc =
        text_of (H := circle) "circle_msgs/Circle" +:+
        foldr (λ datatype rest,
                 (LF +:+ Str.replicate 80 "=" +:+ LF +:+ "MSG: " +:+ datatype +:+ LF)
                 +:+ text_of (H := circle) datatype +:+ rest)
              EmptyString order.
Proof.
  split; [apply initial_consistent |].
  eexists _, _. split; [vm_compute; reflexivity |].
  destruct (get_full_text_document (H := circle) 2 "circle_msgs/Circle"
              _ initial_state _ initial_consistent eq_refl) as (order & _ & Hdoc).
  exists order. exact Hdoc.
Defined.

Lemma circle_full_text_witness :
  consistent (H := circle) initial_state ∧ 2 ≤ 2 ∧
  locate (H := circle) "circle_msgs/Circle"
    = inr (MessageSpec_new circle_text "circle_msgs") ∧
  locate (H := circle) "geometry_msgs/Point"
    = inr (MessageSpec_new point_text "geometry_msgs") ∧
  fst <$> get_full_text (H := circle) 2 "circle_msgs/Circle" initial_state =
  Some (inr (circle_text +:+ LF +:+ Str.replicate 80 "=" +:+ LF
             +:+ "MSG: geometry_msgs/Point" +:+ LF +:+ point_text)).
Proof.
  assert (locate (H := circle) "circle_msgs/Circle"
          = inr (MessageSpec_new circle_text "circle_msgs")) as Hcircle
    by (vm_compute; reflexivity).
  assert (locate (H := circle) "geometry_msgs/Point"
          = inr (MessageSpec_new point_text "geometry_msgs")) as Hpoint
    by (vm_compute; reflexivity).
  split_and!; [apply initial_consistent | lia | exact Hcircle | exact Hpoint |].
  apply (circle_full_text (H := circle) 2 initial_state initial_consistent
           (le_n 2) Hcircle Hpoint).
Defined.

Lemma get_full_text_terminates_witness :
  consistent (H := diamond) initial_state ∧
  depth_bound (H := diamond) "p/Root" ≤ 6 ∧
  (∀ datatype, rtc (depends_on (H := diamond)) "p/Root" datatype →
               ∃ spec, locate (H := diamond) datatype = inr spec) ∧
  rtc (depends_on (H := diamond)) "p/Root" "p/D" ∧
  ∃ doc st' before after,
    get_full_text (H := diamond) 6 "p/Root" initial_state = Some (inr doc, st') ∧
    (∀ depth', 6 ≤ depth' →
       fst <$> get_full_text (H := diamond) depth' "p/Root" initial_state
       = Some (inr doc)) ∧
    ("p/D" ∉ before) ∧ ("p/D" ∉ after) ∧
    doc = text_of (H := diamond) "p/Root" +:+ blocks (H := diamond) before
          +:+ schema_block (H := diamond) "p/D" +:+ blocks (H := diamond) after.
Proof.
  assert (depth_bound (H := diamond) "p/Root" ≤ 6) as Hdepth
    by (vm_compute; lia).
  split_and!; [apply initial_consistent | exact Hdepth
               | exact Checks.diamond_resolves | exact Checks.diamond_shared |].
  destruct (get_full_text_terminates (H := diamond) 6 "p/Root" initial_state
              initial_consistent Hdepth) as (r & st' & Hcall & Hmono & Hreturns & Hdoc).
  destruct (Hreturns Checks.diamond_resolves) as [doc ->].
  destruct (Hdoc doc eq_refl) as (order & _ & _ & _ & Honce).
  destruct (Honce "p/D" Checks.diamond_shared) as (before & after & Hb & Ha & Heq);
    [discriminate |].
  exists doc, st', before, after. split_and!; done.
Defined.

Lemma failure_propagates_witness :
  consistent (H := containers) initial_state ∧
  rtc (depends_on (H := containers)) "p/Broken" "p/Missing" ∧
  locate (H := containers) "p/Missing" = inl (NotFound "p/Missing") ∧
  depth_bound (H := containers) "p/Broken" ≤ 4 ∧
  (∀ other e2, rtc (depends_on (H := containers)) "p/Broken" other →
               locate (H := containers) other = inl e2 → other = "p/Missing") ∧
  ∃ st', get_full_text (H := containers) 4 "p/Broken" initial_state
         = Some (inl (NotFound "p/Missing"), st').
Proof.
  assert (locate (H := containers) "p/Missing" = inl (NotFound "p/Missing"))
    as Hfail by (vm_compute; reflexivity).
  assert (depth_bound (H := containers) "p/Broken" ≤ 4) as Hdepth
    by (vm_compute; lia).
  split_and!; [apply initial_consistent | exact Checks.broken_missing | exact Hfail
               | exact Hdepth | exact Checks.broken_only |].
  destruct (failure_propagates (H := containers) 4 "p/Broken" initial_state
              initial_consistent) as (_ & _ & _ & Hreach).
  destruct (Hreach "p/Missing" (NotFound "p/Missing") Checks.broken_missing Hfail)
    as (_ & Hthrows).
  destruct (Hthrows Hdepth) as (failed & e' & st' & _ & _ & Hcall & Hsame).
  exists st'. by rewrite <- (Hsame Checks.broken_only).
Defined.

Lemma get_full_text_deterministic_witness :
  let st := snd (load_message_spec (H := circle) "geometry_msgs/Point" initial_state) in
  consistent (H := circle) st ∧
  msg_specs_by_datatype_ st !! "geometry_msgs/Point"
    = Some (MessageSpec_new point_text "geometry_msgs") ∧
  fst <$> get_full_text (H := circle) 2 "circle_msgs/Circle" st =
  fst <$> get_full_text (H := circle) 2 "circle_msgs/Circle" initial_state.
Proof.
  cbv zeta.
  assert (consistent (H := circle)
            (snd (load_message_spec (H := circle) "geometry_msgs/Point" initial_state)))
    as Hst by apply (load_message_spec_consistent (H := circle)), initial_consistent.
  split_and!; [exact Hst | vm_compute; reflexivity |].
  destruct (get_full_text_deterministic (H := circle) 2 "circle_msgs/Circle" _ Hst)
    as (_ & Hsame & _).
  exact Hsame.
Defined.

(** The document of the circle is not of the form that the
    specification words, whatever the further schemas are taken to be. *)
Lemma separator_counterexample :
  ∃ doc st',
    get_full_text (H := circle) 2 "circle_msgs/Circle" initial_state
      = Some (inr doc, st') ∧
    ∀ others, doc ≠ spec_document circle_text others.
Proof.
  eexists _, _. split; [vm_compute; reflexivity |].
  intros others Hdoc.
  assert (∀ rest, circle_text +:+ LF +:+ rest
                  ≠ spec_document circle_text others) as Hne.
  { intros rest Heq. unfold spec_document in Heq.
    apply append_inv_head in Heq. destruct others as [|[d t] others]; [done |].
    simpl in Heq. vm_compute in Heq. discriminate Heq. }
  eapply Hne. rewrite <- Hdoc. vm_compute. reflexivity.
Qed.

(** The document of the circle is not the one that the specification
    gives for it: a line feed comes before the line of [=]. *)
Lemma circle_counterexample :
  locate (H := circle) "circle_msgs/Circle"
    = inr (MessageSpec_new circle_text "circle_msgs") ∧
  locate (H := circle) "geometry_msgs/Point"
    = inr (MessageSpec_new point_text "geometry_msgs") ∧
  dependencies (MessageSpec_new circle_text "circle_msgs") = ["geometry_msgs/Point"] ∧
  dependencies (MessageSpec_new point_text "geometry_msgs") = [] ∧
  ∃ doc st',
    get_full_text (H := circle) 2 "circle_msgs/Circle" initial_state
      = Some (inr doc, st') ∧
    doc ≠ circle_text +:+ Str.replicate 80 "=" +:+ LF
          +:+ "MSG: geometry_msgs/Point" +:+ LF +:+ point_text.
Proof.
  split_and!; [vm_compute; reflexivity.. |].
  eexists _, _. split; [vm_compute; reflexivity |].
  vm_compute. discriminate.
Qed.

(** A service file that splits into two parts.  A type name in which no
    selector occurs: the call returns a schema, with an empty text.  The
    selector [_Response]: the text is empty as well, not the second part.
    A type name made of the base and two selectors: the first part is
    selected, as [_Request] occurs in it. *)
Lemma selector_counterexample :
  regex_match_MSG_DATATYPE "p/Add_Other" = Some ("p", "Add_Other") ∧
  files (Installation := containers) !! "/opt/ros/share/p/srv/Add.srv"
    = Some add_text ∧
  length (split_parts add_text) = 2 ∧
  fst (load_message_spec (H := containers) "p/Add_Other" initial_state)
    = inr {| dependencies := []; text := EmptyString |} ∧
  fst (load_message_spec (H := containers) "p/Add_Other" initial_state)
    ≠ inl (MalformedService "p/Add_Other") ∧
  split_parts add_text = ["int64 a" +:+ LF; LF +:+ "int64 sum" +:+ LF] ∧
  fst (load_message_spec (H := containers) "p/Add_Response" initial_state)
    = inr {| dependencies := []; text := EmptyString |} ∧
  fst (load_message_spec (H := containers) "p/Add_Response" initial_state)
    ≠ inr (MessageSpec_new (LF +:+ "int64 sum" +:+ LF) "p") ∧
  fst (load_message_spec (H := containers) "p/Add_Request_Result" initial_state)
    = inr (MessageSpec_new ("int64 a" +:+ LF) "p") ∧
  fst (load_message_spec (H := containers) "p/Add_Request_Result" initial_state)
    ≠ inr (MessageSpec_new (LF +:+ "int64 sum" +:+ LF) "p") ∧
  fst (load_message_spec (H := containers) "p/Add_Request_Result" initial_state)
    ≠ inl (MalformedService "p/Add_Request_Result").
Proof.
  split_and!; try (vm_compute; reflexivity); vm_compute; discriminate.
Qed.

Lemma split_parts_no_delimiter_witness :
  "int64 a" +:+ LF ∈ split_parts add_text ∧
  Str.occurs "---" ("int64 a" +:+ LF) = false.
Proof.
  assert ("int64 a" +:+ LF ∈ split_parts add_text) as Hin
    by (vm_compute; apply list_elem_of_here).
  split; [exact Hin |].
  exact (split_parts_no_delimiter add_text ("int64 a" +:+ LF) Hin).
Defined.

Lemma field_types_shape_witness :
  "geometry_msgs/Point" ∈ field_types circle_text ∧
  "geometry_msgs/Point" ≠ EmptyString ∧
  Str.all_chars is_type_char "geometry_msgs/Point" = true ∧
  Str.occurs "geometry_msgs/Point" circle_text = true.
Proof.
  assert ("geometry_msgs/Point" ∈ field_types circle_text) as Hin
    by (vm_compute; apply list_elem_of_here).
  split; [exact Hin |].
  exact (field_types_shape circle_text "geometry_msgs/Point" Hin).
Defined.

Lemma parse_dependencies_set_witness :
  let text1 := "A a" +:+ LF +:+ "B b" +:+ LF in
  let text2 := "B b" +:+ LF +:+ "A a" +:+ LF +:+ "A c" +:+ LF in
  (∀ type, type ∈ field_types text1 ↔ type ∈ field_types text2) ∧
  parse_dependencies text1 "p" = parse_dependencies text2 "p".
Proof.
  cbv zeta.
  assert (∀ type, type ∈ field_types ("A a" +:+ LF +:+ "B b" +:+ LF)
                  ↔ type ∈ field_types ("B b" +:+ LF +:+ "A a" +:+ LF
                                         +:+ "A c" +:+ LF)) as Hsame.
  { intros type.
    assert (field_types ("A a" +:+ LF +:+ "B b" +:+ LF) = ["A"; "B"]) as ->
      by (vm_compute; reflexivity).
    assert (field_types ("B b" +:+ LF +:+ "A a" +:+ LF +:+ "A c" +:+ LF)
            = ["B"; "A"; "A"]) as -> by (vm_compute; reflexivity).
    set_solver. }
  split; [exact Hsame |].
  exact (parse_dependencies_set _ _ "p" Hsame).
Defined.

Lemma dependency_package_witness :
  is_word "geometry_msgs" = true ∧
  "geometry_msgs/Point" ∈ parse_dependencies ("Point p" +:+ LF) "geometry_msgs" ∧
  regex_match_MSG_DATATYPE "geometry_msgs/Point" = Some ("geometry_msgs", "Point").
Proof.
  assert (is_word "geometry_msgs" = true) as Hword by (vm_compute; reflexivity).
  assert ("geometry_msgs/Point" ∈ parse_dependencies ("Point p" +:+ LF) "geometry_msgs")
    as Hin by (vm_compute; apply list_elem_of_here).
  split_and!; [exact Hword | exact Hin |].
  destruct (dependency_package _ _ _ Hword Hin)
    as [(type & _ & _ & _) | (type & _ & _ & _ & _)];
    vm_compute; reflexivity.
Defined.

Lemma get_full_text_extends_witness :
  let st := snd (load_message_spec (H := circle) "geometry_msgs/Point" initial_state) in
  msg_specs_by_datatype_ st !! "geometry_msgs/Point"
    = Some (MessageSpec_new point_text "geometry_msgs") ∧
  ∃ r st',
    get_full_text (H := circle) 2 "circle_msgs/Circle" st = Some (r, st') ∧
    msg_specs_by_datatype_ st' !! "geometry_msgs/Point"
      = Some (MessageSpec_new point_text "geometry_msgs") ∧
    opened st `prefix_of` opened st'.
Proof.
  cbv zeta.
  assert (msg_specs_by_datatype_
            (snd (load_message_spec (H := circle) "geometry_msgs/Point" initial_state))
            !! "geometry_msgs/Point"
          = Some (MessageSpec_new point_text "geometry_msgs")) as Hlook
    by (vm_compute; reflexivity).
  split; [exact Hlook |].
  destruct (get_full_text (H := circle) 2 "circle_msgs/Circle"
              (snd (load_message_spec (H := circle) "geometry_msgs/Point"
                      initial_state))) as [[r st']|] eqn:Hcall;
    [|vm_compute in Hcall; discriminate Hcall].
  exists r, st'. split; [reflexivity |].
  destruct (get_full_text_extends (H := circle) 2 "circle_msgs/Circle" _ _ _ Hcall)
    as [Hkept Htrace].
  split; [exact (Hkept _ _ Hlook) | exact Htrace].
Defined.

Lemma get_full_text_caches_witness :
  consistent (H := circle) initial_state ∧
  rtc (depends_on (H := circle)) "circle_msgs/Circle" "geometry_msgs/Point" ∧
  ∃ doc st',
    get_full_text (H := circle) 2 "circle_msgs/Circle" initial_state
      = Some (inr doc, st') ∧
    ∃ spec, msg_specs_by_datatype_ st' !! "geometry_msgs/Point" = Some spec ∧
            locate (H := circle) "geometry_msgs/Point" = inr spec.
Proof.
  split_and!; [apply initial_consistent | exact Checks.circle_point |].
  eexists _, _. split; [vm_compute; reflexivity |].
  exact (get_full_text_caches (H := circle) 2 "circle_msgs/Circle" _ initial_state _
           initial_consistent eq_refl "geometry_msgs/Point" Checks.circle_point).
Defined.

Lemma get_full_text_again_witness :
  consistent (H := circle) initial_state ∧
  ∃ doc st',
    get_full_text (H := circle) 2 "circle_msgs/Circle" initial_state
      = Some (inr doc, st') ∧
    get_full_text (H := circle) 2 "circle_msgs/Circle" st' = Some (inr doc, st').
Proof.
  split; [apply initial_consistent |].
  eexists _, _. split; [vm_compute; reflexivity |].
  exact (get_full_text_again (H := circle) 2 "circle_msgs/Circle" _ initial_state _
           initial_consistent eq_refl).
Defined.

Lemma get_full_text_reads_witness :
  consistent (H := diamond) initial_state ∧
  ∃ doc st' order,
    get_full_text (H := diamond) 4 "p/Root" initial_state = Some (inr doc, st') ∧
    NoDup ("p/Root" :: order) ∧
    doc = document (H := diamond) "p/Root" order ∧
    file_reads st' = S (length order).
Proof.
  split; [apply initial_consistent |].
  destruct (get_full_text (H := diamond) 4 "p/Root" initial_state)
    as [[[e | doc] st']|] eqn:Hcall; [vm_compute in Hcall; discriminate Hcall | |
                                      vm_compute in Hcall; discriminate Hcall].
  destruct (get_full_text_reads (H := diamond) 4 "p/Root" _ initial_state _
              initial_consistent Hcall) as (order & Hnd & Hdoc & _ & Hreads).
  exists doc, st', order. split_and!; [reflexivity | exact Hnd | exact Hdoc |].
  exact (Hreads eq_refl).
Defined.

Lemma load_message_spec_alias_witness :
  let st1 := snd (load_message_spec (H := circle) "geometry_msgs/Point" initial_state) in
  regex_match_MSG_DATATYPE "geometry_msgs/Point" = Some ("geometry_msgs", "Point") ∧
  regex_match_MSG_DATATYPE "geometry_msgs/msg/Point" = Some ("geometry_msgs", "Point") ∧
  consistent (H := circle) initial_state ∧
  msg_specs_by_datatype_ st1 !! "geometry_msgs/msg/Point" = None ∧
  ∃ st2,
    load_message_spec (H := circle) "geometry_msgs/msg/Point" st1
      = (inr (MessageSpec_new point_text "geometry_msgs"), st2) ∧
    file_reads st2 = S (file_reads st1).
Proof.
  cbv zeta.
  assert (regex_match_MSG_DATATYPE "geometry_msgs/Point"
          = Some ("geometry_msgs", "Point")) as Hd1 by (vm_compute; reflexivity).
  assert (regex_match_MSG_DATATYPE "geometry_msgs/msg/Point"
          = Some ("geometry_msgs", "Point")) as Hd2 by (vm_compute; reflexivity).
  assert (load_message_spec (H := circle) "geometry_msgs/Point" initial_state
          = (inr (MessageSpec_new point_text "geometry_msgs"),
             snd (load_message_spec (H := circle) "geometry_msgs/Point" initial_state)))
    as Hload by (vm_compute; reflexivity).
  assert (msg_specs_by_datatype_
            (snd (load_message_spec (H := circle) "geometry_msgs/Point" initial_state))
            !! "geometry_msgs/msg/Point" = None) as Hmiss
    by (vm_compute; reflexivity).
  split_and!; [exact Hd1 | exact Hd2 | apply initial_consistent | exact Hmiss |].
  destruct (load_message_spec_alias (H := circle) _ _ _ _ _ _ _
              Hd1 Hd2 initial_consistent Hload) as [_ Hsecond].
  destruct (Hsecond Hmiss) as (st2 & Hload2 & Hreads & _).
  by exists st2.
Defined.

End Concrete.
